(** * Exception and error-code bridge of the speech SDK core

    A shallow embedding of [source/core/common/exception.cpp] and of the
    constructor of [IntentRecognitionResult], together with models of the
    handle table, the asynchronous operation runtime and the event
    dispatch that the sources only declare or exercise. *)

From Stdlib Require Import NArith String Ascii List Lia.
From stdpp Require Import gmap strings list fin_maps.

Local Open Scope N_scope.
Local Open Scope string_scope.

(** ** Primitive types *)

(** [SPXHR] is [uintptr_t]: an unsigned machine word.  No operation of the
    bridge does arithmetic on it, so it is kept as a binary natural. *)
Definition SPXHR : Type := N.

(** [size_t] additions wrap around at the word size. *)
Definition size_t_bits : N := 64.
Definition size_t_add (a b : N) : N := (a + b) mod 2 ^ size_t_bits.

(** [s.c_str()] seen as a C string, and the conversion of a [const char*]
    to a [std::string]: the characters before the first NUL. *)
Fixpoint c_str (s : string) : string :=
  match s with
  | EmptyString => EmptyString
  | String c rest =>
      if Ascii.eqb c Ascii.zero then EmptyString else String c (c_str rest)
  end.

(** Does a string hold a NUL? *)
Fixpoint has_nul (s : string) : bool :=
  match s with
  | EmptyString => false
  | String c rest => Ascii.eqb c Ascii.zero || has_nul rest
  end.

(** ** The error constants of [spxerror.h]

    The header is outside of the sources, so the numeric values of the
    constants are a parameter of the development. *)
Class spxerror_h : Type := {
  SPX_NOERROR : SPXHR;
  SPXERR_NOT_IMPL : SPXHR;
  SPXERR_UNINITIALIZED : SPXHR;
  SPXERR_ALREADY_INITIALIZED : SPXHR;
  SPXERR_UNHANDLED_EXCEPTION : SPXHR;
  SPXERR_NOT_FOUND : SPXHR;
  SPXERR_INVALID_ARG : SPXHR;
  SPXERR_TIMEOUT : SPXHR;
  SPXERR_ALREADY_IN_PROGRESS : SPXHR;
  SPXERR_FILE_OPEN_FAILED : SPXHR;
  SPXERR_UNEXPECTED_EOF : SPXHR;
  SPXERR_INVALID_HEADER : SPXHR;
  SPXERR_AUDIO_IS_PUMPING : SPXHR;
  SPXERR_UNSUPPORTED_FORMAT : SPXHR;
  SPXERR_ABORT : SPXHR;
  SPXERR_MIC_NOT_AVAILABLE : SPXHR;
  SPXERR_INVALID_STATE : SPXHR;
  SPXERR_UUID_CREATE_FAILED : SPXHR;
  SPXERR_SETFORMAT_UNEXPECTED_STATE_TRANSITION : SPXHR;
  SPXERR_PROCESS_AUDIO_INVALID_STATE : SPXHR;
  SPXERR_START_RECOGNIZING_INVALID_STATE_TRANSITION : SPXHR;
  SPXERR_UNEXPECTED_CREATE_OBJECT_FAILURE : SPXHR;
  SPXERR_MIC_ERROR : SPXHR;
  SPXERR_NO_AUDIO_INPUT : SPXHR;
  SPXERR_UNEXPECTED_USP_SITE_FAILURE : SPXHR;
  SPXERR_BUFFER_TOO_SMALL : SPXHR;
  SPXERR_OUT_OF_MEMORY : SPXHR;
  SPXERR_RUNTIME_ERROR : SPXHR;
  SPXERR_INVALID_URL : SPXHR;
  SPXERR_INVALID_REGION : SPXHR;
  SPXERR_SWITCH_MODE_NOT_ALLOWED : SPXHR;
}.

(** A sample numbering with pairwise distinct non-zero failure codes.  It
    only serves to instantiate the general statements; no theorem about the
    bridge depends on these particular values. *)
Definition sample_spxerror_h : spxerror_h := {|
  SPX_NOERROR := 0x000;
  SPXERR_NOT_IMPL := 0xfff;
  SPXERR_UNINITIALIZED := 0x001;
  SPXERR_ALREADY_INITIALIZED := 0x002;
  SPXERR_UNHANDLED_EXCEPTION := 0x003;
  SPXERR_NOT_FOUND := 0x004;
  SPXERR_INVALID_ARG := 0x005;
  SPXERR_TIMEOUT := 0x006;
  SPXERR_ALREADY_IN_PROGRESS := 0x007;
  SPXERR_FILE_OPEN_FAILED := 0x008;
  SPXERR_UNEXPECTED_EOF := 0x009;
  SPXERR_INVALID_HEADER := 0x00a;
  SPXERR_AUDIO_IS_PUMPING := 0x00b;
  SPXERR_UNSUPPORTED_FORMAT := 0x00c;
  SPXERR_ABORT := 0x00d;
  SPXERR_MIC_NOT_AVAILABLE := 0x00e;
  SPXERR_INVALID_STATE := 0x00f;
  SPXERR_UUID_CREATE_FAILED := 0x010;
  SPXERR_SETFORMAT_UNEXPECTED_STATE_TRANSITION := 0x011;
  SPXERR_PROCESS_AUDIO_INVALID_STATE := 0x012;
  SPXERR_START_RECOGNIZING_INVALID_STATE_TRANSITION := 0x013;
  SPXERR_UNEXPECTED_CREATE_OBJECT_FAILURE := 0x014;
  SPXERR_MIC_ERROR := 0x015;
  SPXERR_NO_AUDIO_INPUT := 0x016;
  SPXERR_UNEXPECTED_USP_SITE_FAILURE := 0x017;
  SPXERR_BUFFER_TOO_SMALL := 0x019;
  SPXERR_OUT_OF_MEMORY := 0x01a;
  SPXERR_RUNTIME_ERROR := 0x01b;
  SPXERR_INVALID_URL := 0x01c;
  SPXERR_INVALID_REGION := 0x01d;
  SPXERR_SWITCH_MODE_NOT_ALLOWED := 0x01e;
|}.

(** ** [operator<<] with [std::hex] on an unsigned integer *)

Definition hex_digit (d : N) : ascii :=
  match d with
  | 0 => "0" | 1 => "1" | 2 => "2" | 3 => "3" | 4 => "4"
  | 5 => "5" | 6 => "6" | 7 => "7" | 8 => "8" | 9 => "9"
  | 10 => "a" | 11 => "b" | 12 => "c" | 13 => "d" | 14 => "e"
  | _ => "f"
  end%char.

(** Digits are produced from the least significant one and pushed in front
    of [acc]; [fuel] bounds the number of digits after the first. *)
Fixpoint hex_digits (fuel : nat) (n : N) (acc : string) : string :=
  let acc' := String (hex_digit (n mod 16)) acc in
  match fuel with
  | O => acc'
  | S fuel' => if N.eqb (n / 16) 0 then acc' else hex_digits fuel' (n / 16) acc'
  end.

Definition put_hex (n : N) : string :=
  hex_digits (N.to_nat (N.log2 n)) n "".

(** Reading a lowercase hexadecimal numeral back, used to state that
    [put_hex] is the hexadecimal rendering of its argument. *)
Definition hex_digit_value (c : ascii) : option N :=
  let n := N_of_ascii c in
  if N.leb 48 n && N.leb n 57 then Some (n - 48)
  else if N.leb 97 n && N.leb n 102 then Some (n - 87)
  else None.

Fixpoint hex_value_from (s : string) (v : N) : option N :=
  match s with
  | EmptyString => Some v
  | String c rest =>
      match hex_digit_value c with
      | Some d => hex_value_from rest (v * 16 + d)
      | None => None
      end
  end.

Definition hex_value (s : string) : option N :=
  match s with
  | EmptyString => None
  | _ => hex_value_from s 0
  end.

(** ** [errorToString] and [stringify] *)

Section Stringify.
Context `{spxerror_h}.

(** The initializer list of [errorToString]; [_MAP_ENTRY(x)] is the pair
    of the constant and of its spelling. *)
Definition errorToString_entries : list (SPXHR * string) := [
  (SPXERR_NOT_IMPL, "SPXERR_NOT_IMPL");
  (SPXERR_UNINITIALIZED, "SPXERR_UNINITIALIZED");
  (SPXERR_ALREADY_INITIALIZED, "SPXERR_ALREADY_INITIALIZED");
  (SPXERR_UNHANDLED_EXCEPTION, "SPXERR_UNHANDLED_EXCEPTION");
  (SPXERR_NOT_FOUND, "SPXERR_NOT_FOUND");
  (SPXERR_INVALID_ARG, "SPXERR_INVALID_ARG");
  (SPXERR_TIMEOUT, "SPXERR_TIMEOUT");
  (SPXERR_ALREADY_IN_PROGRESS, "SPXERR_ALREADY_IN_PROGRESS");
  (SPXERR_FILE_OPEN_FAILED, "SPXERR_FILE_OPEN_FAILED");
  (SPXERR_UNEXPECTED_EOF, "SPXERR_UNEXPECTED_EOF");
  (SPXERR_INVALID_HEADER, "SPXERR_INVALID_HEADER");
  (SPXERR_AUDIO_IS_PUMPING, "SPXERR_AUDIO_IS_PUMPING");
  (SPXERR_UNSUPPORTED_FORMAT, "SPXERR_UNSUPPORTED_FORMAT");
  (SPXERR_ABORT, "SPXERR_ABORT");
  (SPXERR_MIC_NOT_AVAILABLE, "SPXERR_MIC_NOT_AVAILABLE");
  (SPXERR_INVALID_STATE, "SPXERR_INVALID_STATE");
  (SPXERR_UUID_CREATE_FAILED, "SPXERR_UUID_CREATE_FAILED");
  (SPXERR_SETFORMAT_UNEXPECTED_STATE_TRANSITION,
    "SPXERR_SETFORMAT_UNEXPECTED_STATE_TRANSITION");
  (SPXERR_PROCESS_AUDIO_INVALID_STATE, "SPXERR_PROCESS_AUDIO_INVALID_STATE");
  (SPXERR_START_RECOGNIZING_INVALID_STATE_TRANSITION,
    "SPXERR_START_RECOGNIZING_INVALID_STATE_TRANSITION");
  (SPXERR_UNEXPECTED_CREATE_OBJECT_FAILURE,
    "SPXERR_UNEXPECTED_CREATE_OBJECT_FAILURE");
  (SPXERR_MIC_ERROR, "SPXERR_MIC_ERROR");
  (SPXERR_NO_AUDIO_INPUT, "SPXERR_NO_AUDIO_INPUT");
  (SPXERR_UNEXPECTED_USP_SITE_FAILURE, "SPXERR_UNEXPECTED_USP_SITE_FAILURE");
  (SPXERR_BUFFER_TOO_SMALL, "SPXERR_BUFFER_TOO_SMALL");
  (SPXERR_OUT_OF_MEMORY, "SPXERR_OUT_OF_MEMORY");
  (SPXERR_RUNTIME_ERROR, "SPXERR_RUNTIME_ERROR");
  (SPXERR_INVALID_URL, "SPXERR_INVALID_URL");
  (SPXERR_INVALID_REGION, "SPXERR_INVALID_REGION");
  (SPXERR_SWITCH_MODE_NOT_ALLOWED, "SPXERR_SWITCH_MODE_NOT_ALLOWED")
].

(** A [std::map] built from an initializer list keeps, for a repeated
    key, the entry that comes first; so does [list_to_map]. *)
Definition errorToString : gmap SPXHR string :=
  list_to_map errorToString_entries.

(** The keys of [errorToString]. *)
Definition known_codes : list SPXHR := errorToString_entries.*1.

Definition stringify (hr : SPXHR) : string :=
  let sstream := "0x" +:+ put_hex hr in
  match errorToString !! hr with
  | Some item => sstream +:+ " (" +:+ item +:+ ")"
  | None => sstream
  end.
End Stringify.

(** ** Collaborators that the sources only name *)

(** The frames of the calling thread, innermost first. *)
Definition call_stack : Type := list string.

(** [Debug::GetCallStack(skipLevels, makeFunctionNamesStandOut)] of
    [debug_utils.h]: it renders the stack it is called on. *)
Class debug_utils_h : Type := {
  Debug_GetCallStack : call_stack -> N -> bool -> string
}.

(** The standard library leaves a moved-from [std::string] in a valid but
    unspecified state. *)
Class cxx_string : Type := {
  moved_from : string -> string
}.

(** An array with automatic storage and no initializer holds indeterminate
    characters. *)
Class automatic_storage : Type := {
  indeterminate_chars : nat -> list ascii
}.

(** A sample platform: the stack is rendered from the innermost frame
    that is not skipped outwards, and a moved-from string is empty. *)
Definition sample_debug_utils_h : debug_utils_h := {|
  Debug_GetCallStack frames skipLevels _ :=
    String.concat " < " (drop (N.to_nat skipLevels) frames)
|}.

Definition sample_cxx_string : cxx_string := {|
  moved_from _ := ""
|}.

Definition sample_automatic_storage : automatic_storage := {|
  indeterminate_chars n := repeat "?"%char n
|}.

(** ** [ExceptionWithCallStack] *)

Record runtime_error : Type := {
  what_arg : string
}.

(** [std::runtime_error::what()] hands out a C string. *)
Definition runtime_error_what (ex : runtime_error) : string :=
  c_str (what_arg ex).

Record ExceptionWithCallStack : Type := {
  as_runtime_error : runtime_error;
  m_callstack : string;
  m_error : SPXHR
}.

Definition what (this : ExceptionWithCallStack) : string :=
  runtime_error_what (as_runtime_error this).

Definition GetCallStack (this : ExceptionWithCallStack) : string :=
  c_str (m_callstack this).

Definition GetErrorCode (this : ExceptionWithCallStack) : SPXHR :=
  m_error this.

(** What can be read from a record. *)
Definition components (this : ExceptionWithCallStack)
    : string * SPXHR * string :=
  (what this, GetErrorCode this, GetCallStack this).

(** A call of a [const] member function: its value, and the object it was
    called on. *)
Definition const_call {A : Type} (method : ExceptionWithCallStack -> A)
    (this : ExceptionWithCallStack) : A * ExceptionWithCallStack :=
  (method this, this).

(** What a call does: it returns, or it leaves by [throw]. *)
Inductive outcome (A : Type) : Type :=
  | Returned (a : A)
  | Thrown (ex : ExceptionWithCallStack).
Arguments Returned {A} a.
Arguments Thrown {A} ex.

Section Exception.
Context `{spxerror_h} `{debug_utils_h} `{cxx_string}.

(** Both constructors run on top of the caller's frames [site]. *)
Definition ctor_frame : string :=
  "ExceptionWithCallStack::ExceptionWithCallStack".

(** [ExceptionWithCallStack(SPXHR error, size_t skipLevels = 0)] *)
Definition ExceptionWithCallStack_from_error (site : call_stack)
    (error : SPXHR) (skipLevels : N) : ExceptionWithCallStack :=
  {| as_runtime_error :=
       {| what_arg := "Exception with an error code: " +:+ stringify error |};
     m_callstack :=
       Debug_GetCallStack (ctor_frame :: site) (size_t_add skipLevels 1) true;
     m_error := error |}.

(** [ExceptionWithCallStack(const std::string& message,
      SPXHR error = SPXERR_UNHANDLED_EXCEPTION, size_t skipLevels = 0)] *)
Definition ExceptionWithCallStack_from_message (site : call_stack)
    (message : string) (error : SPXHR) (skipLevels : N)
    : ExceptionWithCallStack :=
  {| as_runtime_error := {| what_arg := message |};
     m_callstack :=
       Debug_GetCallStack (ctor_frame :: site) (size_t_add skipLevels 1) true;
     m_error := error |}.

(** The implicit move constructor: the new object takes over the value of
    every member, and the source keeps its scalar member only. *)
Definition move_construct (ex : ExceptionWithCallStack)
    : ExceptionWithCallStack * ExceptionWithCallStack :=
  ({| as_runtime_error := {| what_arg := what_arg (as_runtime_error ex) |};
      m_callstack := m_callstack ex;
      m_error := m_error ex |},
   {| as_runtime_error :=
        {| what_arg := moved_from (what_arg (as_runtime_error ex)) |};
      m_callstack := moved_from (m_callstack ex);
      m_error := m_error ex |}).

(** The throw helpers never return; the debug trace they emit first has
    no effect on the exception. *)
Definition ThrowWithCallstack (site : call_stack) (hr : SPXHR)
    (skipLevels : N) : outcome Empty_set :=
  let ex := ExceptionWithCallStack_from_error ("ThrowWithCallstack" :: site)
              hr (size_t_add skipLevels 1) in
  Thrown ex.

Definition ThrowRuntimeError (site : call_stack) (msg : string)
    (skipLevels : N) : outcome Empty_set :=
  let ex := ExceptionWithCallStack_from_message ("ThrowRuntimeError" :: site)
              ("Runtime error: " +:+ msg) SPXERR_INVALID_ARG
              (size_t_add skipLevels 1) in
  Thrown ex.

Definition ThrowInvalidArgumentException (site : call_stack) (msg : string)
    (skipLevels : N) : outcome Empty_set :=
  let ex := ExceptionWithCallStack_from_message
              ("ThrowInvalidArgumentException" :: site)
              ("Invalid argument exception: " +:+ msg) SPXERR_INVALID_ARG
              (size_t_add skipLevels 1) in
  Thrown ex.

Definition ThrowLogicError (site : call_stack) (msg : string)
    (skipLevels : N) : outcome Empty_set :=
  let ex := ExceptionWithCallStack_from_message ("ThrowLogicError" :: site)
              ("Logic error: " +:+ msg) SPXERR_INVALID_ARG
              (size_t_add skipLevels 1) in
  Thrown ex.
End Exception.

(** ** The handle table *)

(** What an operation on a handle gives: a value, or a failure code. *)
Inductive hresult (A : Type) : Type :=
  | HrOk (a : A)
  | HrFail (hr : SPXHR).
Arguments HrOk {A} a.
Arguments HrFail {A} hr.

(** Modelled from the spec: [handle_table.h], with
    [CSpxSharedPtrHandleTableManager] and [TrackHandle], is not part of the
    sources.  Following section 4.1 of the specification, a table maps the
    handles it issued and did not release yet to the objects they stand
    for; [Track] issues a handle, [Resolve] and [Release] fail with
    [NotFound] on a handle that is not tracked, [IsValid] probes.  How a
    handle value is chosen is left to the table. *)
Class handle_table_h : Type := {
  issue_handle : forall T : Type, gmap N T -> T -> N
}.

(** The handle that [Track] issues is not in use. *)
Definition issues_unused `{handle_table_h} : Prop :=
  forall (T : Type) (tbl : gmap N T) (t : T),
    tbl !! issue_handle T tbl t = None.

(** A sample table, which issues the first handle that is not in use. *)
Definition sample_handle_table_h : handle_table_h := {|
  issue_handle T tbl _ := fresh (dom tbl)
|}.

Section HandleTable.
Context `{spxerror_h} `{handle_table_h} {T : Type}.

(** Modelled from the spec: [Track(object)] of the handle table, which
    the sources call as [TrackHandle]; it registers the object under the
    handle that the table issues. *)
Definition TrackHandle (tbl : gmap N T) (t : T) : N * gmap N T :=
  let handle := issue_handle T tbl t in
  (handle, <[handle := t]> tbl).

(** Modelled from the spec: [Resolve(handle)] of the handle table, which
    gives the object or fails with [NotFound]. *)
Definition Resolve (tbl : gmap N T) (handle : N) : hresult T :=
  match tbl !! handle with
  | Some t => HrOk t
  | None => HrFail SPXERR_NOT_FOUND
  end.

(** Modelled from the spec: [Release(handle)] of the handle table, behind
    the release functions of the C API such as
    [keyword_recognition_model_handle_release]; it drops the entry or
    fails with [NotFound]. *)
Definition Release (tbl : gmap N T) (handle : N)
    : hresult unit * gmap N T :=
  match tbl !! handle with
  | Some _ => (HrOk tt, delete handle tbl)
  | None => (HrFail SPXERR_NOT_FOUND, tbl)
  end.

(** Modelled from the spec: [IsValid(handle)] of the handle table, the
    probe behind functions such as
    [keyword_recognition_model_handle_is_valid]. *)
Definition IsValid (tbl : gmap N T) (handle : N) : bool :=
  bool_decide (is_Some (tbl !! handle)).
End HandleTable.

(** ** [StoreException] *)

Section StoreException.
Context `{spxerror_h} `{debug_utils_h} `{cxx_string} `{handle_table_h}.

(** [StoreException(ExceptionWithCallStack&& ex)]: the record is moved
    into a new object, which the table of error handles tracks.  The
    result is the handle, the table, and what is left of [ex]. *)
Definition StoreException (errorHandles : gmap N ExceptionWithCallStack)
    (ex : ExceptionWithCallStack)
    : SPXHR * gmap N ExceptionWithCallStack * ExceptionWithCallStack :=
  let '(handle, ex') := move_construct ex in
  let '(h, errorHandles') := TrackHandle errorHandles handle in
  (h, errorHandles', ex').

(** [StoreException(const std::runtime_error& ex)]: a new record is made
    from [ex.what()] alone, with the default arguments of the
    constructor. *)
Definition StoreException_runtime_error (site : call_stack)
    (errorHandles : gmap N ExceptionWithCallStack) (ex : runtime_error)
    : SPXHR * gmap N ExceptionWithCallStack :=
  let handle := ExceptionWithCallStack_from_message
                  ("StoreException" :: site) (runtime_error_what ex)
                  SPXERR_UNHANDLED_EXCEPTION 0 in
  TrackHandle errorHandles handle.
End StoreException.

(** ** [IntentRecognitionResult] *)

Definition SPXRESULTHANDLE : Type := N.

(** The functions of the C API that the constructor calls.
    [IntentResult_GetIntentId hresult sz cch] takes the buffer it is given
    and its capacity and gives back its status and the buffer as it left
    it. *)
Class speechapi_c_h : Type := {
  recognizer_result_handle_is_valid : SPXRESULTHANDLE -> bool;
  IntentResult_GetIntentId :
    SPXRESULTHANDLE -> list ascii -> N -> SPXHR * list ascii
}.

(** The base class and its constructor, of
    [speechapi_cxx_recognition_result.h]. *)
Class recognition_result_h : Type := {
  RecognitionResult : Type;
  RecognitionResult_ctor : call_stack -> SPXRESULTHANDLE -> outcome RecognitionResult
}.

(** A sample C API: the handle 1 stands for a result with the intent id
    [TurnOn], the handle 2 for a result that has none, and the handle 3
    for one whose id is never written; the other handles are not valid.
    The base class of the sample keeps the handle. *)
Definition sample_speechapi_c_h : speechapi_c_h := {|
  recognizer_result_handle_is_valid h := N.eqb h 1 || N.eqb h 2 || N.eqb h 3;
  IntentResult_GetIntentId h sz cch :=
    if N.eqb h 1 then
      (0, (list_ascii_of_string "TurnOn" ++ [Ascii.zero] ++ drop 7 sz)%list)
    else if N.eqb h 2 then (5, sz)
    else (0, sz)
|}.

Definition sample_recognition_result_h : recognition_result_h := {|
  RecognitionResult := SPXRESULTHANDLE;
  RecognitionResult_ctor _ h := Returned h
|}.

(** Reading a C string out of an array of [cells] characters: the
    characters before the first NUL, if there is one in the array. *)
Fixpoint read_c_string (cells : nat) (sz : list ascii) : option string :=
  match cells, sz with
  | S cells', c :: rest =>
      if Ascii.eqb c Ascii.zero then Some EmptyString
      else String c <$> read_c_string cells' rest
  | _, _ => None
  end.

(** A call that never returns, placed where a value is expected. *)
Definition rethrow {A : Type} (o : outcome Empty_set) : outcome A :=
  match o with
  | Returned e => match e with end
  | Thrown ex => Thrown ex
  end.

Record IntentRecognitionResult `{recognition_result_h} : Type := {
  base : RecognitionResult;
  m_intentId : string
}.

Section IntentRecognitionResult.
Context `{spxerror_h} `{debug_utils_h} `{automatic_storage}
        `{speechapi_c_h} `{recognition_result_h}.

(** Modelled from the spec: the macro [SPX_FAILED] comes from a header
    outside of the sources.  Section 6 of the specification makes the
    success sentinel the one value that is not a failure. *)
Definition SPX_FAILED (hr : SPXHR) : bool := negb (N.eqb hr SPX_NOERROR).

(** [SPX_THROW_ON_FAIL(hr)] throws on a failure and goes on with the rest
    of the body otherwise.  The throwing macro behind it is the one that
    the test suite defines before it includes the C++ API: a call of
    [ThrowWithCallstack] with the default number of skipped levels. *)
Definition SPX_THROW_ON_FAIL {A : Type} (site : call_stack) (hr : SPXHR)
    (rest : option (outcome A)) : option (outcome A) :=
  if SPX_FAILED hr then Some (rethrow (ThrowWithCallstack site hr 0))
  else rest.

Definition maxCharCount : N := 1024.

(** [PopulateIntentFields(hresult, pintentId)]; the result is the string
    that [pintentId] points to afterwards.  [None] stands for a read past
    the end of [sz], on which the language defines no behaviour. *)
Definition PopulateIntentFields (site : call_stack)
    (hresult : SPXRESULTHANDLE) (pintentId : option string)
    : option (outcome (option string)) :=
  let frames := "PopulateIntentFields" :: site in
  let cells := N.to_nat (maxCharCount + 1) in
  let sz := indeterminate_chars cells in
  match pintentId with
  | Some _ =>
      if recognizer_result_handle_is_valid hresult then
        let '(hr, sz') := IntentResult_GetIntentId hresult sz maxCharCount in
        SPX_THROW_ON_FAIL frames hr
          (intentId ← read_c_string cells sz';
           Some (Returned (Some intentId)))
      else Some (Returned pintentId)
  | None => Some (Returned pintentId)
  end.

(** [IntentRecognitionResult(SPXRESULTHANDLE hresult)]: the base class is
    built first, [m_intentId] starts empty, and the body fills it. *)
Definition IntentRecognitionResult_ctor (site : call_stack)
    (hresult : SPXRESULTHANDLE)
    : option (outcome IntentRecognitionResult) :=
  let frames := "IntentRecognitionResult::IntentRecognitionResult" :: site in
  match RecognitionResult_ctor frames hresult with
  | Thrown ex => Some (Thrown ex)
  | Returned b =>
      match PopulateIntentFields frames hresult (Some "") with
      | None => None
      | Some (Thrown ex) => Some (Thrown ex)
      | Some (Returned p) =>
          Some (Returned {| base := b; m_intentId := default "" p |})
      end
  end.

Definition IntentId (this : IntentRecognitionResult) : string :=
  m_intentId this.
End IntentRecognitionResult.

(** ** Uses of a handle table over time *)

(** What the users of a table do to it, one call after the other. *)
Inductive table_op (T : Type) : Type :=
  | OpTrack (t : T)
  | OpResolve (handle : N)
  | OpRelease (handle : N).
Arguments OpTrack {T} t.
Arguments OpResolve {T} handle.
Arguments OpRelease {T} handle.

Section HandleTableRuns.
Context `{spxerror_h} `{handle_table_h} {T : Type}.

Definition table_step (tbl : gmap N T) (op : table_op T) : gmap N T :=
  match op with
  | OpTrack t => (TrackHandle tbl t).2
  | OpResolve _ => tbl
  | OpRelease handle => (Release tbl handle).2
  end.

Definition table_run (ops : list (table_op T)) (tbl : gmap N T) : gmap N T :=
  foldl table_step tbl ops.

Definition is_release_of (h : N) (op : table_op T) : bool :=
  match op with
  | OpRelease handle => N.eqb handle h
  | _ => false
  end.

(** Does a [Track] of the run issue [h]? *)
Fixpoint issues_again (h : N) (ops : list (table_op T)) (tbl : gmap N T)
    : bool :=
  match ops with
  | [] => false
  | op :: rest =>
      match op with
      | OpTrack t => N.eqb (TrackHandle tbl t).1 h
      | _ => false
      end || issues_again h rest (table_step tbl op)
  end.
End HandleTableRuns.

(** ** The asynchronous operation runtime *)

(** Modelled from the spec: the runtime that starts the asynchronous
    operations of a recognizer is not part of the sources, which only call
    it from the test suite.  Following sections 3 and 4.3 of the
    specification, a session keeps its operations, each of a kind and in a
    state, and the work it scheduled; [Start] refuses a kind that conflicts
    with an operation that is not in a terminal state, and otherwise
    schedules the work and records a running operation. *)
Inductive OperationKind : Type :=
  | RecognizeOnce
  | StartContinuous
  | StopContinuous
  | StartKeyword
  | StopKeyword.

Inductive OperationState (Result : Type) : Type :=
  | Pending
  | Running
  | Completed (result : Result)
  | Failed (ex : ExceptionWithCallStack)
  | Cancelled.
Arguments Pending {Result}.
Arguments Running {Result}.
Arguments Completed {Result} result.
Arguments Failed {Result} ex.
Arguments Cancelled {Result}.

Definition is_terminal {Result : Type} (st : OperationState Result) : bool :=
  match st with
  | Pending | Running => false
  | Completed _ | Failed _ | Cancelled => true
  end.

(** The conflict policy: recognize-once and start-continuous conflict with
    each other and with themselves, start-keyword conflicts with itself,
    and the stop kinds conflict with nothing. *)
Definition conflicts (kind other : OperationKind) : bool :=
  match kind, other with
  | RecognizeOnce, (RecognizeOnce | StartContinuous) => true
  | StartContinuous, (RecognizeOnce | StartContinuous) => true
  | StartKeyword, StartKeyword => true
  | _, _ => false
  end.

Record AsyncOperation (Result : Type) : Type := {
  op_kind : OperationKind;
  op_state : OperationState Result
}.
Arguments op_kind {Result} _.
Arguments op_state {Result} _.

Record Session (Work Result : Type) : Type := {
  operations : list (AsyncOperation Result);
  scheduled : list (N * Work)
}.
Arguments operations {Work Result} _.
Arguments scheduled {Work Result} _.

Section AsyncOperations.
Context `{spxerror_h} {Work Result : Type}.

Definition blocks (kind : OperationKind) (op : AsyncOperation Result) : bool :=
  conflicts kind (op_kind op) && negb (is_terminal (op_state op)).

(** Modelled from the spec: [Start(session, kind, work)] of the
    asynchronous operation runtime.  The handle of the new operation is
    its position in the session. *)
Definition Start (session : Session Work Result) (kind : OperationKind)
    (work : Work) : hresult N * Session Work Result :=
  if existsb (blocks kind) (operations session) then
    (HrFail SPXERR_ALREADY_IN_PROGRESS, session)
  else
    let handle := N.of_nat (length (operations session)) in
    (HrOk handle,
     {| operations :=
          operations session ++ [{| op_kind := kind; op_state := Running |}];
        scheduled := scheduled session ++ [(handle, work)] |}).

(** Modelled from the spec: an operation of the asynchronous operation
    runtime reaches a state; a terminal state is never left. *)
Definition settle (session : Session Work Result) (handle : N)
    (st : OperationState Result) : Session Work Result :=
  {| operations :=
       alter (fun op => if is_terminal (op_state op) then op
                        else {| op_kind := op_kind op; op_state := st |})
             (N.to_nat handle) (operations session);
     scheduled := scheduled session |}.
End AsyncOperations.

(** ** Event dispatch *)

(** Modelled from the spec: the event signal behind [Connect],
    [DisconnectAll] and the raising of events is not part of the sources,
    which only use it from the test suite.  Following sections 4.4 and 9
    of the specification, an event keeps its subscriptions in the order of
    registration; a raise takes a snapshot of them when it starts and then
    invokes them one after the other; a disconnect removes registrations
    at once, goes on without waiting when the thread that asks is
    dispatching the event, and otherwise has to wait for the raises in
    flight.  The steps of the threads interleave. *)
Definition ThreadId : Type := N.
Definition SubscriptionId : Type := N.

(** What a callback does to the event it is called for. *)
Inductive Action : Type :=
  | ActDisconnectAll
  | ActDisconnect (id : SubscriptionId)
  | ActFail.

Definition Callback : Type := list Action.

Record Raise : Type := {
  raise_id : N;
  raise_thread : ThreadId;
  raise_pending : list (SubscriptionId * Callback)
}.

Record EventSignal : Type := {
  subscribers : list (SubscriptionId * Callback);
  next_subscription : SubscriptionId;
  next_raise : N;
  in_flight : list Raise;
  delivered : list (N * SubscriptionId)
}.

Inductive disconnect_status : Type :=
  | Proceeded
  | WaitsFor (raises : list N).

Definition new_event : EventSignal :=
  {| subscribers := []; next_subscription := 0; next_raise := 0;
     in_flight := []; delivered := [] |}.

Definition is_dispatching (tid : ThreadId) (ev : EventSignal) : bool :=
  existsb (fun r => N.eqb (raise_thread r) tid) (in_flight ev).

Definition disconnect_wait (tid : ThreadId) (ev : EventSignal)
    : disconnect_status :=
  if is_dispatching tid ev then Proceeded
  else match in_flight ev with
       | [] => Proceeded
       | raises => WaitsFor (raise_id <$> raises)
       end.

Definition with_subscribers (ev : EventSignal)
    (subs : list (SubscriptionId * Callback)) : EventSignal :=
  {| subscribers := subs; next_subscription := next_subscription ev;
     next_raise := next_raise ev; in_flight := in_flight ev;
     delivered := delivered ev |}.

(** Modelled from the spec: [Connect] of the event dispatch; the
    subscription is added after those registered before. *)
Definition Connect (ev : EventSignal) (callback : Callback)
    : SubscriptionId * EventSignal :=
  let id := next_subscription ev in
  (id,
   {| subscribers := subscribers ev ++ [(id, callback)];
      next_subscription := id + 1;
      next_raise := next_raise ev; in_flight := in_flight ev;
      delivered := delivered ev |}).

(** Modelled from the spec: [Disconnect] of the event dispatch, called by
    the thread [tid]. *)
Definition Disconnect (tid : ThreadId) (ev : EventSignal) (id : SubscriptionId)
    : EventSignal * disconnect_status :=
  (with_subscribers ev
     (filter (fun sub => negb (N.eqb sub.1 id)) (subscribers ev)),
   disconnect_wait tid ev).

(** Modelled from the spec: [DisconnectAll] of the event dispatch, called
    by the thread [tid]. *)
Definition DisconnectAll (tid : ThreadId) (ev : EventSignal)
    : EventSignal * disconnect_status :=
  (with_subscribers ev [], disconnect_wait tid ev).

(** The body of a callback, run by the thread [tid]; a failure ends the
    callback and is discarded by the raise. *)
Fixpoint run_callback (tid : ThreadId) (body : Callback) (ev : EventSignal)
    : EventSignal * list disconnect_status :=
  match body with
  | [] => (ev, [])
  | ActFail :: _ => (ev, [])
  | ActDisconnectAll :: rest =>
      let '(ev1, status) := DisconnectAll tid ev in
      let '(ev2, statuses) := run_callback tid rest ev1 in
      (ev2, status :: statuses)
  | ActDisconnect id :: rest =>
      let '(ev1, status) := Disconnect tid ev id in
      let '(ev2, statuses) := run_callback tid rest ev1 in
      (ev2, status :: statuses)
  end.

(** Modelled from the spec: the start of a [Raise] of the event dispatch,
    which takes the snapshot of the subscribers. *)
Definition BeginRaise (tid : ThreadId) (ev : EventSignal) : N * EventSignal :=
  let rid := next_raise ev in
  (rid,
   {| subscribers := subscribers ev;
      next_subscription := next_subscription ev;
      next_raise := rid + 1;
      in_flight := {| raise_id := rid; raise_thread := tid;
                      raise_pending := subscribers ev |} :: in_flight ev;
      delivered := delivered ev |}).

Definition set_pending (rid : N) (pending : list (SubscriptionId * Callback))
    (r : Raise) : Raise :=
  if N.eqb (raise_id r) rid then
    {| raise_id := raise_id r; raise_thread := raise_thread r;
       raise_pending := pending |}
  else r.

(** Modelled from the spec: one step of a [Raise] of the event dispatch.
    The raise [rid] invokes the next callback of its snapshot, or it ends
    when none is left. *)
Definition Deliver (rid : N) (ev : EventSignal)
    : EventSignal * list disconnect_status :=
  match find (fun r => N.eqb (raise_id r) rid) (in_flight ev) with
  | None => (ev, [])
  | Some r =>
      match raise_pending r with
      | [] =>
          ({| subscribers := subscribers ev;
              next_subscription := next_subscription ev;
              next_raise := next_raise ev;
              in_flight :=
                filter (fun r' => negb (N.eqb (raise_id r') rid)) (in_flight ev);
              delivered := delivered ev |}, [])
      | (id, callback) :: pending =>
          let ev1 :=
            {| subscribers := subscribers ev;
               next_subscription := next_subscription ev;
               next_raise := next_raise ev;
               in_flight := set_pending rid pending <$> in_flight ev;
               delivered := delivered ev ++ [(rid, id)] |} in
          run_callback (raise_thread r) callback ev1
      end
  end.

Inductive event_op : Type :=
  | DoConnect (callback : Callback)
  | DoDisconnect (tid : ThreadId) (id : SubscriptionId)
  | DoDisconnectAll (tid : ThreadId)
  | DoRaise (tid : ThreadId)
  | DoDeliver (rid : N).

Definition event_step (ev : EventSignal) (op : event_op) : EventSignal :=
  match op with
  | DoConnect callback => (Connect ev callback).2
  | DoDisconnect tid id => (Disconnect tid ev id).1
  | DoDisconnectAll tid => (DisconnectAll tid ev).1
  | DoRaise tid => (BeginRaise tid ev).2
  | DoDeliver rid => (Deliver rid ev).1
  end.

Definition event_run (ops : list event_op) (ev : EventSignal) : EventSignal :=
  foldl event_step ev ops.

Definition subscribed (id : SubscriptionId) (ev : EventSignal) : bool :=
  existsb (fun sub => N.eqb sub.1 id) (subscribers ev).

Definition delivered_to (id : SubscriptionId) (ev : EventSignal) : list N :=
  (filter (fun d => N.eqb d.2 id) (delivered ev)).*1.

(** Subscriptions and raises are numbered in the order in which they are
    made. *)
Definition event_wf (ev : EventSignal) : Prop :=
  (forall sub, sub ∈ subscribers ev -> sub.1 < next_subscription ev) /\
  (forall r, r ∈ in_flight ev -> raise_id r < next_raise ev) /\
  (forall d, d ∈ delivered ev -> d.1 < next_raise ev).

(** The subscription [id] was removed before the raise numbered [first]
    started: it is registered no more, no raise from [first] on has it in
    its snapshot, and only earlier raises delivered to it. *)
Definition disconnected_since (id : SubscriptionId) (first : N)
    (ev : EventSignal) : Prop :=
  (forall sub, sub ∈ subscribers ev -> sub.1 <> id) /\
  id < next_subscription ev /\
  first <= next_raise ev /\
  (forall r, r ∈ in_flight ev -> first <= raise_id r ->
     forall sub, sub ∈ raise_pending r -> sub.1 <> id) /\
  (forall d, d ∈ delivered ev -> d.2 = id -> d.1 < first).

(** ** The exception of a throw helper *)

(** The exception that a call which never returns leaves with. *)
Definition thrown_by (o : outcome Empty_set) : ExceptionWithCallStack :=
  match o with
  | Returned e => match e with end
  | Thrown ex => ex
  end.

(** ** Reading a formatted code back *)

(** The hexadecimal digits that a string starts with. *)
Fixpoint hex_prefix (s : string) : string :=
  match s with
  | EmptyString => EmptyString
  | String c rest =>
      match hex_digit_value c with
      | Some _ => String c (hex_prefix rest)
      | None => EmptyString
      end
  end.

(** The code that a string formatted by [stringify] stands for: the value
    of the digits between ["0x"] and the end or the first other
    character. *)
Definition code_of_stringified (s : string) : option SPXHR :=
  match s with
  | String "0" (String "x" rest) => hex_value (hex_prefix rest)
  | _ => None
  end.

(** ** The helpers of the test suite *)

(** The mock parameters of [mock_controller.h], which is outside of the
    sources: a store of named switches and numbers. *)
Class mock_controller_h : Type := {
  mock_parameters : Type;
  SpxSetMockParameterBool : string -> bool -> mock_parameters -> mock_parameters;
  SpxGetMockParameterBool : string -> mock_parameters -> bool;
  SpxSetMockParameterNumber : string -> Z -> mock_parameters -> mock_parameters
}.

(** The store gives back what was set last under a name, and setting a
    number leaves the switches alone. *)
Definition keeps_mock_parameters `{mock_controller_h} : Prop :=
  (forall name value params,
     SpxGetMockParameterBool name (SpxSetMockParameterBool name value params)
     = value) /\
  (forall name other value params,
     name <> other ->
     SpxGetMockParameterBool other (SpxSetMockParameterBool name value params)
     = SpxGetMockParameterBool other params) /\
  (forall name other value params,
     SpxGetMockParameterBool other (SpxSetMockParameterNumber name value params)
     = SpxGetMockParameterBool other params).

(** A sample store: two finite maps, and a switch that was never set is
    off. *)
Definition sample_mock_controller_h : mock_controller_h := {|
  mock_parameters := gmap string bool * gmap string Z;
  SpxSetMockParameterBool name value params := (<[name := value]> params.1, params.2);
  SpxGetMockParameterBool name params := default false (params.1 !! name);
  SpxSetMockParameterNumber name value params := (params.1, <[name := value]> params.2)
|}.

Section Mocks.
Context `{mock_controller_h}.

Definition UseMocks (value : bool) (params : mock_parameters) : mock_parameters :=
  let params := SpxSetMockParameterBool "CARBON-INTERNAL-MOCK-UspRecoEngine" value params in
  let params := SpxSetMockParameterBool "CARBON-INTERNAL-MOCK-Microphone" value params in
  SpxSetMockParameterBool "CARBON-INTERNAL-MOCK-SdkKwsEngine" value params.

Definition UseMockUsp (value : bool) (params : mock_parameters) : mock_parameters :=
  SpxSetMockParameterBool "CARBON-INTERNAL-MOCK-UspRecoEngine" value params.

(** [IsUsingMocks(bool uspMockRequired = true)] *)
Definition IsUsingMocks (uspMockRequired : bool) (params : mock_parameters) : bool :=
  SpxGetMockParameterBool "CARBON-INTERNAL-MOCK-Microphone" params &&
  SpxGetMockParameterBool "CARBON-INTERNAL-MOCK-SdkKwsEngine" params &&
  (SpxGetMockParameterBool "CARBON-INTERNAL-MOCK-UspRecoEngine" params
   || negb uspMockRequired).

Definition SetMockRealTimeSpeed (value : Z) (params : mock_parameters) : mock_parameters :=
  SpxSetMockParameterNumber "CARBON-INTERNAL-MOCK-RealTimeAudioPercentage" value params.
End Mocks.

(** The loop of the test of the callback counts.  Its [int] values stay
    far from the bounds of the type, so they are kept as integers; [%]
    and [/] are the truncating remainder and quotient. *)
Definition callback_test_numLoops (endpoint_empty : bool) : Z :=
  if endpoint_empty then 11%Z else 20%Z.

Definition callback_test_useMockUsp (endpoint_empty : bool) (i : Z) : bool :=
  if negb endpoint_empty && Z.eqb (Z.rem i 2) 0 then false
  else Z.ltb (i + 1) (callback_test_numLoops endpoint_empty).

Definition callback_test_realTimeRate (endpoint_empty : bool) (i : Z) : Z :=
  Z.quot ((i + 1) * 100) (callback_test_numLoops endpoint_empty).

(** What an iteration of that loop does to the mock parameters before it
    creates its recognizer. *)
Definition callback_test_configure `{mock_controller_h} (endpoint_empty : bool)
    (params : mock_parameters) (i : Z) : mock_parameters :=
  UseMockUsp (callback_test_useMockUsp endpoint_empty i)
    (SetMockRealTimeSpeed (callback_test_realTimeRate endpoint_empty i) params).

(** The asynchronous methods that the first test starts, one per
    iteration and each on a recognizer of its own. *)
Inductive AsyncMethod : Type :=
  | StartContinuousRecognitionAsync
  | StopContinuousRecognitionAsync
  | StartKeywordRecognitionAsync
  | StopKeywordRecognitionAsync.

Definition async_test_method (numAsyncMethods i : nat) : AsyncMethod :=
  if Nat.eqb (i mod numAsyncMethods) 0 then StartContinuousRecognitionAsync
  else if Nat.eqb (i mod numAsyncMethods) 1 then StopContinuousRecognitionAsync
  else if Nat.eqb (i mod numAsyncMethods) 2 then StartKeywordRecognitionAsync
  else StopKeywordRecognitionAsync.

(** The calls of the loop, in order: the recognizer of the iteration and
    the method started on it. *)
Definition async_test_calls (numLoops : nat) : list (nat * AsyncMethod) :=
  let numAsyncMethods := 4%nat in
  (fun i => (i, async_test_method numAsyncMethods i))
    <$> seq 0 (numLoops * numAsyncMethods).

#[global] Instance AsyncMethod_eq_dec : EqDecision AsyncMethod.
Proof. solve_decision. Defined.

(** How often a method is started by a list of calls. *)
Definition times_started (method : AsyncMethod)
    (calls : list (nat * AsyncMethod)) : nat :=
  length (filter (fun call => call.2 = method) calls).

(** The counters of the callbacks: a [std::map<Callbacks, atomic_int>]. *)
Inductive Callbacks : Type :=
  | final_result
  | intermediate_result
  | no_match
  | session_started
  | session_stopped
  | speech_start_detected
  | speech_end_detected.

#[global] Instance Callbacks_eq_dec : EqDecision Callbacks.
Proof. solve_decision. Defined.

Definition Callbacks_to_nat (kind : Callbacks) : nat :=
  match kind with
  | final_result => 0
  | intermediate_result => 1
  | no_match => 2
  | session_started => 3
  | session_stopped => 4
  | speech_start_detected => 5
  | speech_end_detected => 6
  end.

Definition Callbacks_of_nat (n : nat) : Callbacks :=
  match n with
  | 0 => final_result
  | 1 => intermediate_result
  | 2 => no_match
  | 3 => session_started
  | 4 => session_stopped
  | 5 => speech_start_detected
  | _ => speech_end_detected
  end%nat.

#[global] Instance Callbacks_countable : Countable Callbacks.
Proof. apply (inj_countable' Callbacks_to_nat Callbacks_of_nat). by intros []. Defined.

(** An [atomic_int] wraps around in two's complement. *)
Definition atomic_int_wrap (z : Z) : Z :=
  ((z + 2 ^ 31) mod 2 ^ 32 - 2 ^ 31)%Z.

(** [counts[kind]]: the entry, which is made with the value zero when the
    key is missing. *)
Definition counter_at (counts : gmap Callbacks Z) (kind : Callbacks)
    : Z * gmap Callbacks Z :=
  match counts !! kind with
  | Some value => (value, counts)
  | None => (0%Z, <[kind := 0%Z]> counts)
  end.

(** [counts[kind] = value] *)
Definition counter_assign (counts : gmap Callbacks Z) (kind : Callbacks)
    (value : Z) : gmap Callbacks Z :=
  <[kind := value]> (counter_at counts kind).2.

(** [counts[kind]++] *)
Definition counter_increment (counts : gmap Callbacks Z) (kind : Callbacks)
    : gmap Callbacks Z :=
  let '(value, counts) := counter_at counts kind in
  <[kind := atomic_int_wrap (value + 1)]> counts.

Definition createCallbacksMap : gmap Callbacks Z :=
  let newMap := ∅ in
  let newMap := counter_assign newMap final_result 0 in
  let newMap := counter_assign newMap intermediate_result 0 in
  let newMap := counter_assign newMap no_match 0 in
  let newMap := counter_assign newMap session_started 0 in
  let newMap := counter_assign newMap speech_start_detected 0 in
  let newMap := counter_assign newMap session_stopped 0 in
  newMap.

(** The callbacks that ran, in order, each incrementing its counter. *)
Definition count_callbacks (counts : gmap Callbacks Z) (ran : list Callbacks)
    : gmap Callbacks Z :=
  foldl counter_increment counts ran.

Definition times_ran (kind : Callbacks) (ran : list Callbacks) : Z :=
  Z.of_nat (length (filter (fun k => k = kind) ran)).

(** ** A C API that terminates the string it writes *)

(** A sample C API that always leaves a C string: the handle 1 stands for
    a result with the intent id [TurnOn], the handle 2 for a result that
    has none; the other handles are not valid. *)
Definition sample_terminating_c_h : speechapi_c_h := {|
  recognizer_result_handle_is_valid h := N.eqb h 1 || N.eqb h 2;
  IntentResult_GetIntentId h sz cch :=
    if N.eqb h 1 then
      (0, (list_ascii_of_string "TurnOn" ++ [Ascii.zero] ++ drop 7 sz)%list)
    else (5, sz)
|}.

(** Whenever the call for the intent id succeeds with the capacity that
    the constructor passes, it leaves a NUL in the array. *)
Definition terminates_intent_id `{spxerror_h} `{speechapi_c_h} : Prop :=
  forall (hresult : SPXRESULTHANDLE) (sz : list ascii),
    let '(hr, sz') := IntentResult_GetIntentId hresult sz maxCharCount in
    SPX_FAILED hr = false ->
    is_Some (read_c_string (N.to_nat (maxCharCount + 1)) sz').

(** ** Uses of the table of error handles over time *)

(** What the callers of the bridge do with the table of error handles:
    they store exceptions, through either overload, and read the stored
    records through their handles. *)
Inductive bridge_op : Type :=
  | DoStoreException (ex : ExceptionWithCallStack)
  | DoStoreRuntimeError (site : call_stack) (ex : runtime_error)
  | DoGetErrorCode (handle : N)
  | DoGetCallStack (handle : N)
  | DoWhat (handle : N).

Section BridgeRuns.
Context `{spxerror_h} `{debug_utils_h} `{cxx_string} `{handle_table_h}.

Definition bridge_step (errorHandles : gmap N ExceptionWithCallStack)
    (op : bridge_op) : gmap N ExceptionWithCallStack :=
  match op with
  | DoStoreException ex => (StoreException errorHandles ex).1.2
  | DoStoreRuntimeError site ex =>
      (StoreException_runtime_error site errorHandles ex).2
  | DoGetErrorCode _ | DoGetCallStack _ | DoWhat _ => errorHandles
  end.

Definition bridge_run (ops : list bridge_op)
    (errorHandles : gmap N ExceptionWithCallStack)
    : gmap N ExceptionWithCallStack :=
  foldl bridge_step errorHandles ops.
End BridgeRuns.

(** ** A base class that reads through the handle *)


(** ** Disconnects among the steps of an event *)

(** Does the body of a callback, as far as it runs, remove the
    subscription [id]? *)
Fixpoint callback_disconnects (id : SubscriptionId) (body : Callback) : bool :=
  match body with
  | [] => false
  | ActFail :: _ => false
  | ActDisconnectAll :: _ => true
  | ActDisconnect id' :: rest => N.eqb id' id || callback_disconnects id rest
  end.

(** Is the step [op], taken on the event [ev], a disconnect of the
    subscription [id]: a [DisconnectAll], a [Disconnect] of [id], or the
    delivery of a raise to a callback that makes one of them? *)
Definition is_disconnect_of (id : SubscriptionId) (ev : EventSignal)
    (op : event_op) : bool :=
  match op with
  | DoDisconnectAll _ => true
  | DoDisconnect _ id' => N.eqb id' id
  | DoDeliver rid =>
      match find (fun r => N.eqb (raise_id r) rid) (in_flight ev) with
      | Some r =>
          match raise_pending r with
          | (_, callback) :: _ => callback_disconnects id callback
          | [] => false
          end
      | None => false
      end
  | DoConnect _ | DoRaise _ => false
  end.

(** The raise [rid] takes [steps] steps of its own. *)
Fixpoint deliver_to_end (rid : N) (steps : nat) (ev : EventSignal)
    : EventSignal :=
  match steps with
  | O => ev
  | S steps' => deliver_to_end rid steps' (Deliver rid ev).1
  end.

(** * Properties *)

(** ** Sanity checks of [stringify] *)

Example stringify_invalid_arg :
  @stringify sample_spxerror_h 5 = "0x5 (SPXERR_INVALID_ARG)".
Proof. vm_compute. reflexivity. Qed.

Example stringify_not_impl :
  @stringify sample_spxerror_h 4095 = "0xfff (SPXERR_NOT_IMPL)".
Proof. vm_compute. reflexivity. Qed.

Example stringify_unknown :
  @stringify sample_spxerror_h 24 = "0x18".
Proof. vm_compute. reflexivity. Qed.

Example stringify_zero :
  @stringify sample_spxerror_h 0 = "0x0".
Proof. vm_compute. reflexivity. Qed.

Example stringify_all_ones :
  @stringify sample_spxerror_h (2 ^ 64 - 1) = "0xffffffffffffffff".
Proof. vm_compute. reflexivity. Qed.

(** ** The hexadecimal rendering *)

Lemma hex_digit_value_hex_digit (d : N) :
  d < 16 -> hex_digit_value (hex_digit d) = Some d.
Proof.
  intros Hd.
  assert (Hcases : In d [0; 1; 2; 3; 4; 5; 6; 7; 8; 9; 10; 11; 12; 13; 14; 15]).
  { simpl. lia. }
  simpl in Hcases.
  repeat (destruct Hcases as [<- | Hcases]; [reflexivity |]).
  contradiction.
Qed.

Lemma hex_value_from_hex_digits (fuel : nat) :
  forall (n : N) (acc : string),
    n < 16 ^ N.of_nat (S fuel) ->
    hex_value_from (hex_digits fuel n acc) 0 = hex_value_from acc n.
Proof.
  induction fuel as [| fuel IH]; intros n acc Hn.
  - simpl in *. change (16 ^ 1) with 16 in Hn.
    rewrite N.mod_small by assumption.
    rewrite hex_digit_value_hex_digit by assumption. reflexivity.
  - cbn [hex_digits].
    assert (Hdigit : n mod 16 < 16) by (apply N.mod_lt; lia).
    destruct (N.eqb_spec (n / 16) 0) as [Hq | Hq].
    + cbn [hex_value_from]. rewrite hex_digit_value_hex_digit by assumption.
      f_equal. pose proof (N.div_mod n 16). lia.
    + rewrite IH.
      * cbn [hex_value_from]. rewrite hex_digit_value_hex_digit by assumption.
        f_equal. pose proof (N.div_mod n 16). lia.
      * apply N.Div0.div_lt_upper_bound.
        replace (N.of_nat (S (S fuel))) with (N.succ (N.of_nat (S fuel))) in Hn by lia.
        rewrite N.pow_succ_r' in Hn. exact Hn.
Qed.

Lemma hex_digits_nonempty (fuel : nat) (n : N) (acc : string) :
  hex_digits fuel n acc <> "".
Proof.
  revert n acc. induction fuel as [| fuel IH]; intros n acc; cbn [hex_digits].
  - discriminate.
  - destruct (N.eqb (n / 16) 0); [discriminate | apply IH].
Qed.

Lemma put_hex_bound (n : N) : n < 16 ^ N.of_nat (S (N.to_nat (N.log2 n))).
Proof.
  replace (N.of_nat (S (N.to_nat (N.log2 n)))) with (N.succ (N.log2 n)) by lia.
  destruct (N.eq_dec n 0) as [-> | Hn].
  - reflexivity.
  - apply N.lt_le_trans with (2 ^ N.succ (N.log2 n)).
    + apply N.log2_spec. lia.
    + apply N.pow_le_mono_l. lia.
Qed.

(** [put_hex n] is a hexadecimal numeral whose value is [n]. *)
Lemma hex_value_put_hex (n : N) : hex_value (put_hex n) = Some n.
Proof.
  unfold hex_value, put_hex.
  pose proof (hex_digits_nonempty (N.to_nat (N.log2 n)) n "") as Hne.
  destruct (hex_digits (N.to_nat (N.log2 n)) n "") eqn:E; [congruence |].
  rewrite <- E. rewrite hex_value_from_hex_digits by apply put_hex_bound.
  reflexivity.
Qed.

Lemma hex_digits_leading (fuel : nat) :
  forall (n : N) (acc : string),
    n <> 0 -> n < 16 ^ N.of_nat (S fuel) ->
    exists c rest, hex_digits fuel n acc = String c rest /\ c <> "0"%char.
Proof.
  assert (Hdigit : forall d, d <> 0 -> d < 16 -> hex_digit d <> "0"%char).
  { intros d Hd0 Hd.
    assert (Hcases : In d [1; 2; 3; 4; 5; 6; 7; 8; 9; 10; 11; 12; 13; 14; 15]).
    { simpl. lia. }
    simpl in Hcases.
    repeat (destruct Hcases as [<- | Hcases]; [discriminate |]).
    contradiction. }
  induction fuel as [| fuel IH]; intros n acc Hn0 Hn.
  - simpl in *. change (16 ^ 1) with 16 in Hn.
    rewrite N.mod_small by assumption. eauto.
  - cbn [hex_digits]. destruct (N.eqb_spec (n / 16) 0) as [Hq | Hq].
    + assert (n mod 16 = n) as -> by (pose proof (N.div_mod n 16); lia).
      pose proof (N.mod_lt n 16).
      assert (n < 16) by (pose proof (N.div_mod n 16); lia).
      eauto.
    + apply IH; [assumption |].
      apply N.Div0.div_lt_upper_bound.
      replace (N.of_nat (S (S fuel))) with (N.succ (N.of_nat (S fuel))) in Hn by lia.
      rewrite N.pow_succ_r' in Hn. exact Hn.
Qed.

(** No leading zero: the rendering of a non-zero value starts with a
    non-zero digit, and zero is rendered as one digit. *)
Lemma put_hex_leading (n : N) :
  n <> 0 -> exists c rest, put_hex n = String c rest /\ c <> "0"%char.
Proof. intros Hn. apply hex_digits_leading; [assumption | apply put_hex_bound]. Qed.

Lemma put_hex_zero : put_hex 0 = "0".
Proof. reflexivity. Qed.

(** ** [stringify] *)

Lemma append_suffix_neq (s t : string) : t <> "" -> s +:+ t <> s.
Proof.
  intros Ht Heq. apply Ht. clear Ht.
  induction s as [| c s IH]; [assumption |].
  change (String c (s +:+ t) = String c s) in Heq.
  injection Heq as Heq. by apply IH.
Qed.

Section StringifyFacts.
Context `{spxerror_h}.

Lemma errorToString_Some (hr : SPXHR) (name : string) :
  errorToString !! hr = Some name -> (hr, name) ∈ errorToString_entries.
Proof. apply elem_of_list_to_map_2. Qed.

Lemma errorToString_None (hr : SPXHR) :
  errorToString !! hr = None <-> hr ∉ known_codes.
Proof. symmetry. apply not_elem_of_list_to_map. Qed.

Lemma errorToString_known (hr : SPXHR) :
  hr ∈ known_codes <-> is_Some (errorToString !! hr).
Proof.
  rewrite <- not_eq_None_Some, errorToString_None.
  split; [tauto |]. intros Hnn. destruct (decide (hr ∈ known_codes)); tauto.
Qed.

(** When the constants are pairwise distinct, each of them is rendered
    with its own spelling. *)
Lemma stringify_entry (hr : SPXHR) (name : string) :
  NoDup known_codes ->
  (hr, name) ∈ errorToString_entries ->
  stringify hr = "0x" +:+ put_hex hr +:+ " (" +:+ name +:+ ")".
Proof.
  intros Hnd Hin. unfold stringify.
  rewrite (elem_of_list_to_map_1 errorToString_entries hr name Hnd Hin : errorToString !! hr = Some name).
  reflexivity.
Qed.
End StringifyFacts.

(** C4. For every code [hr], [stringify hr] is ["0x"] followed by the
    hexadecimal numeral of [hr] (a numeral whose value is [hr]); it goes on
    with [" (name)"], for the spelling [name] of an entry of
    [errorToString] with the key [hr], exactly when [hr] is a key of that
    map, and it stops after the numeral otherwise. *)
Theorem stringify_format `{spxerror_h} (hr : SPXHR) :
  hex_value (put_hex hr) = Some hr /\
  (hr ∈ known_codes <-> stringify hr <> "0x" +:+ put_hex hr) /\
  ((hr ∈ known_codes /\
    exists name : string,
      (hr, name) ∈ errorToString_entries /\
      stringify hr = "0x" +:+ put_hex hr +:+ " (" +:+ name +:+ ")")
   \/ ((hr ∉ known_codes) /\ stringify hr = "0x" +:+ put_hex hr)).
Proof.
  split; [apply hex_value_put_hex |].
  unfold stringify.
  destruct (errorToString !! hr) as [name |] eqn:Hfind.
  - assert (Hknown : hr ∈ known_codes).
    { apply errorToString_known. rewrite Hfind. eauto. }
    split.
    + split; [intros _ | done].
      apply append_suffix_neq. discriminate.
    + left. split; [assumption |].
      exists name. split; [by apply errorToString_Some | reflexivity].
  - assert (Hunknown : hr ∉ known_codes) by by apply errorToString_None.
    split; [| by right]. split; [done | congruence].
Qed.

(** ** Exception records *)

Lemma c_str_idempotent (s : string) : c_str (c_str s) = c_str s.
Proof.
  induction s as [| c s IH]; [reflexivity |].
  simpl. destruct (Ascii.eqb c Ascii.zero) eqn:E; [reflexivity |].
  simpl. rewrite E, IH. reflexivity.
Qed.

(** A string without NUL is its own C string. *)
Lemma c_str_no_nul (s : string) : has_nul s = false -> c_str s = s.
Proof.
  induction s as [| c s IH]; [reflexivity |].
  simpl. destruct (Ascii.eqb c Ascii.zero); [discriminate |].
  simpl. intros Hs. rewrite IH by assumption. reflexivity.
Qed.

Section ExceptionFacts.
Context `{spxerror_h} `{debug_utils_h} `{cxx_string} `{handle_table_h}.

(** What a record is made of is settled by the arguments of its
    constructor and by the stack it is built on. *)
Lemma from_message_components (site : call_stack) (message : string)
    (error : SPXHR) (skipLevels : N) :
  let ex := ExceptionWithCallStack_from_message site message error skipLevels in
  what ex = c_str message /\
  GetErrorCode ex = error /\
  GetCallStack ex =
    c_str (Debug_GetCallStack (ctor_frame :: site) (size_t_add skipLevels 1) true).
Proof. repeat split. Qed.

Lemma from_error_components (site : call_stack) (error : SPXHR)
    (skipLevels : N) :
  let ex := ExceptionWithCallStack_from_error site error skipLevels in
  what ex = c_str ("Exception with an error code: " +:+ stringify error) /\
  GetErrorCode ex = error /\
  GetCallStack ex =
    c_str (Debug_GetCallStack (ctor_frame :: site) (size_t_add skipLevels 1) true).
Proof. repeat split. Qed.

(** The object that the move constructor builds is the one it is given. *)
Lemma move_construct_new (ex : ExceptionWithCallStack) :
  (move_construct ex).1 = ex.
Proof. destruct ex as [[w] cs e]. reflexivity. Qed.

Lemma move_construct_source (ex : ExceptionWithCallStack) :
  GetErrorCode (move_construct ex).2 = GetErrorCode ex.
Proof. reflexivity. Qed.

Lemma Resolve_TrackHandle {T : Type} (tbl : gmap N T) (t : T) :
  Resolve (TrackHandle tbl t).2 (TrackHandle tbl t).1 = HrOk t.
Proof. unfold Resolve, TrackHandle. simpl. by rewrite lookup_insert_eq. Qed.

(** Tracking an object leaves the objects behind the other handles
    alone. *)
Lemma Resolve_TrackHandle_other {T : Type} (tbl : gmap N T) (t : T) (h : N) :
  h <> (TrackHandle tbl t).1 ->
  Resolve (TrackHandle tbl t).2 h = Resolve tbl h.
Proof.
  intros Hne. unfold Resolve, TrackHandle in *. simpl in *.
  by rewrite lookup_insert_ne.
Qed.

(** The record that [StoreException] tracks is its argument. *)
Lemma StoreException_stored (errorHandles : gmap N ExceptionWithCallStack)
    (ex : ExceptionWithCallStack) :
  let '(h, errorHandles', _) := StoreException errorHandles ex in
  Resolve errorHandles' h = HrOk ex.
Proof.
  unfold StoreException.
  destruct (move_construct ex) as [new src] eqn:Hmove.
  assert (new = ex) as -> by (rewrite <- (move_construct_new ex), Hmove; done).
  destruct (TrackHandle errorHandles ex) as [h tbl'] eqn:Htrack.
  pose proof (Resolve_TrackHandle errorHandles ex) as Hres.
  rewrite Htrack in Hres. exact Hres.
Qed.

(** The object the record was moved out of keeps its code. *)
Lemma StoreException_source (errorHandles : gmap N ExceptionWithCallStack)
    (ex : ExceptionWithCallStack) :
  let '(_, _, source) := StoreException errorHandles ex in
  GetErrorCode source = GetErrorCode ex.
Proof.
  unfold StoreException, move_construct.
  match goal with |- context [TrackHandle errorHandles ?t] =>
    destruct (TrackHandle errorHandles t) as [h tbl'] end.
  reflexivity.
Qed.
End ExceptionFacts.

(** C1. A record built from a message [m] and a code [c] by the
    constructor that takes a message, once stored with [StoreException],
    is read back through its handle with the same [what()] (the C string
    of [m]) and with the code [c]. *)
Theorem StoreException_roundtrip
    `{spxerror_h} `{debug_utils_h} `{cxx_string} `{handle_table_h}
    (errorHandles : gmap N ExceptionWithCallStack) (site : call_stack)
    (m : string) (c : SPXHR) (skipLevels : N) :
  let ex := ExceptionWithCallStack_from_message site m c skipLevels in
  let '(h, errorHandles', _) := StoreException errorHandles ex in
  exists stored : ExceptionWithCallStack,
    Resolve errorHandles' h = HrOk stored /\
    what stored = what ex /\
    what stored = c_str m /\
    GetErrorCode stored = GetErrorCode ex /\
    GetErrorCode stored = c.
Proof.
  intros ex.
  pose proof (StoreException_stored errorHandles ex) as Hstored.
  destruct (StoreException errorHandles ex) as [[h tbl'] src].
  exists ex. repeat split. exact Hstored.
Qed.

(** When the message holds no NUL, [what()] gives the message itself. *)
Corollary StoreException_roundtrip_message
    `{spxerror_h} `{debug_utils_h} `{cxx_string} `{handle_table_h}
    (errorHandles : gmap N ExceptionWithCallStack) (site : call_stack)
    (m : string) (c : SPXHR) (skipLevels : N) :
  has_nul m = false ->
  let ex := ExceptionWithCallStack_from_message site m c skipLevels in
  let '(h, errorHandles', _) := StoreException errorHandles ex in
  exists stored : ExceptionWithCallStack,
    Resolve errorHandles' h = HrOk stored /\
    what stored = m /\ GetErrorCode stored = c.
Proof.
  intros Hm ex.
  pose proof (StoreException_stored errorHandles ex) as Hstored.
  destruct (StoreException errorHandles ex) as [[h tbl'] src].
  exists ex. repeat split; [exact Hstored |].
  apply c_str_no_nul, Hm.
Qed.

(** ** The throw helpers *)

Section ThrowFacts.
Context `{spxerror_h} `{debug_utils_h}.

Lemma ThrowWithCallstack_code (site : call_stack) (hr : SPXHR)
    (skipLevels : N) :
  exists ex, ThrowWithCallstack site hr skipLevels = Thrown ex /\
             GetErrorCode ex = hr.
Proof. eexists. split; reflexivity. Qed.

Lemma ThrowInvalidArgumentException_code (site : call_stack) (msg : string)
    (skipLevels : N) :
  exists ex, ThrowInvalidArgumentException site msg skipLevels = Thrown ex /\
             GetErrorCode ex = SPXERR_INVALID_ARG.
Proof. eexists. split; reflexivity. Qed.

Lemma ThrowLogicError_code (site : call_stack) (msg : string)
    (skipLevels : N) :
  exists ex, ThrowLogicError site msg skipLevels = Thrown ex /\
             GetErrorCode ex = SPXERR_INVALID_ARG.
Proof. eexists. split; reflexivity. Qed.

Lemma ThrowRuntimeError_code (site : call_stack) (msg : string)
    (skipLevels : N) :
  exists ex, ThrowRuntimeError site msg skipLevels = Thrown ex /\
             GetErrorCode ex = SPXERR_INVALID_ARG /\
             what ex = c_str ("Runtime error: " +:+ msg).
Proof. eexists. repeat split; reflexivity. Qed.
End ThrowFacts.

(** C2. A failure raised through [ThrowRuntimeError] carries the code
    [SPXERR_INVALID_ARG]: wherever that constant differs from
    [SPXERR_RUNTIME_ERROR], the record of a runtime error does not carry
    the code of its own kind. *)
Theorem ThrowRuntimeError_not_runtime_error
    `{spxerror_h} `{debug_utils_h}
    (site : call_stack) (msg : string) (skipLevels : N) :
  SPXERR_INVALID_ARG <> SPXERR_RUNTIME_ERROR ->
  exists ex : ExceptionWithCallStack,
    ThrowRuntimeError site msg skipLevels = Thrown ex /\
    GetErrorCode ex = SPXERR_INVALID_ARG /\
    GetErrorCode ex <> SPXERR_RUNTIME_ERROR.
Proof.
  intros Hdistinct.
  destruct (ThrowRuntimeError_code site msg skipLevels) as (ex & Hthrow & Hcode & _).
  exists ex. rewrite Hcode. auto.
Qed.

Lemma ThrowRuntimeError_not_runtime_error_witness :
  @SPXERR_INVALID_ARG sample_spxerror_h <> @SPXERR_RUNTIME_ERROR sample_spxerror_h /\
  exists ex : ExceptionWithCallStack,
    @ThrowRuntimeError sample_spxerror_h sample_debug_utils_h
      ["main"] "x" 0 = Thrown ex /\
    GetErrorCode ex = 5 /\
    GetErrorCode ex <> 27.
Proof.
  split; [discriminate |].
  apply (@ThrowRuntimeError_not_runtime_error sample_spxerror_h
           sample_debug_utils_h ["main"] "x" 0).
  discriminate.
Defined.

(** ** Storing a plain [std::runtime_error] *)

(** Names the handle and the table that a call of [TrackHandle] in the goal
    gives, and records that the handle resolves to the tracked object. *)
Ltac track_handle h tbl' Hres :=
  match goal with
  | |- context [TrackHandle ?tbl ?t] =>
      pose proof (Resolve_TrackHandle tbl t) as Hres;
      destruct (TrackHandle tbl t) as [h tbl']
  end.

(** C3. A failure that reaches the bridge as a plain [std::runtime_error]
    is stored as a record whose code is [SPXERR_UNHANDLED_EXCEPTION], one
    of the constants of the taxonomy. *)
Theorem StoreException_runtime_error_unhandled
    `{spxerror_h} `{debug_utils_h} `{handle_table_h}
    (site : call_stack) (errorHandles : gmap N ExceptionWithCallStack)
    (ex : runtime_error) :
  let '(h, errorHandles') := StoreException_runtime_error site errorHandles ex in
  exists stored : ExceptionWithCallStack,
    Resolve errorHandles' h = HrOk stored /\
    GetErrorCode stored = SPXERR_UNHANDLED_EXCEPTION /\
    SPXERR_UNHANDLED_EXCEPTION ∈ known_codes.
Proof.
  unfold StoreException_runtime_error.
  track_handle h tbl' Hres.
  eexists. split; [exact Hres |]. split; [reflexivity |].
  unfold known_codes. simpl. set_solver.
Qed.

(** C9. Storing through the [std::runtime_error] overload an object that
    is an [ExceptionWithCallStack] keeps its [what()] only: the stored
    record has the code [SPXERR_UNHANDLED_EXCEPTION] and the stack of the
    place where it is stored, whatever the code and the stack of the
    object were. *)
Theorem StoreException_runtime_error_slices
    `{spxerror_h} `{debug_utils_h} `{handle_table_h}
    (site : call_stack) (errorHandles : gmap N ExceptionWithCallStack)
    (ex : ExceptionWithCallStack) :
  let '(h, errorHandles') :=
    StoreException_runtime_error site errorHandles (as_runtime_error ex) in
  exists stored : ExceptionWithCallStack,
    Resolve errorHandles' h = HrOk stored /\
    GetErrorCode stored = SPXERR_UNHANDLED_EXCEPTION /\
    m_callstack stored =
      Debug_GetCallStack (ctor_frame :: "StoreException" :: site) 1 true /\
    what stored = what ex.
Proof.
  unfold StoreException_runtime_error.
  track_handle h tbl' Hres.
  eexists. split; [exact Hres |]. repeat split.
  unfold what, runtime_error_what. simpl. apply c_str_idempotent.
Qed.

(** ** The constructor of [IntentRecognitionResult] *)

Lemma read_c_string_length (cells : nat) :
  forall (sz : list ascii) (s : string),
    read_c_string cells sz = Some s -> (String.length s < cells)%nat.
Proof.
  induction cells as [| cells IH]; intros sz s Hread; [discriminate |].
  destruct sz as [| c rest]; [discriminate |]. simpl in Hread.
  destruct (Ascii.eqb c Ascii.zero).
  - injection Hread as <-. simpl. lia.
  - destruct (read_c_string cells rest) as [s' |] eqn:Hrest; [| discriminate].
    injection Hread as <-. simpl. specialize (IH _ _ Hrest). lia.
Qed.

Lemma read_c_string_no_nul (cells : nat) :
  forall (sz : list ascii) (s : string),
    read_c_string cells sz = Some s -> has_nul s = false.
Proof.
  induction cells as [| cells IH]; intros sz s Hread; [discriminate |].
  destruct sz as [| c rest]; [discriminate |]. simpl in Hread.
  destruct (Ascii.eqb c Ascii.zero) eqn:Hc.
  - injection Hread as <-. reflexivity.
  - destruct (read_c_string cells rest) as [s' |] eqn:Hrest; [| discriminate].
    injection Hread as <-. simpl. rewrite Hc. simpl. exact (IH _ _ Hrest).
Qed.

Section IntentFacts.
Context `{spxerror_h} `{debug_utils_h} `{automatic_storage}
        `{speechapi_c_h} `{recognition_result_h}.

(** On a handle that is not valid, [PopulateIntentFields] returns and
    leaves the string alone. *)
Lemma PopulateIntentFields_invalid (site : call_stack)
    (hresult : SPXRESULTHANDLE) (pintentId : option string) :
  recognizer_result_handle_is_valid hresult = false ->
  PopulateIntentFields site hresult pintentId = Some (Returned pintentId).
Proof.
  intros Hinvalid. unfold PopulateIntentFields.
  destruct pintentId; [rewrite Hinvalid |]; reflexivity.
Qed.

(** Without a string to fill, it does not even look at the handle. *)
Lemma PopulateIntentFields_null (site : call_stack)
    (hresult : SPXRESULTHANDLE) :
  PopulateIntentFields site hresult None = Some (Returned None).
Proof. reflexivity. Qed.

(** An intent id that was read has at most [maxCharCount] characters. *)
Lemma PopulateIntentFields_length (site : call_stack)
    (hresult : SPXRESULTHANDLE) (old intentId : string) :
  recognizer_result_handle_is_valid hresult = true ->
  PopulateIntentFields site hresult (Some old) = Some (Returned (Some intentId)) ->
  (String.length intentId <= N.to_nat maxCharCount)%nat.
Proof.
  intros Hvalid. unfold PopulateIntentFields. rewrite Hvalid.
  destruct (IntentResult_GetIntentId _ _ _) as [hr sz'].
  unfold SPX_THROW_ON_FAIL. destruct (SPX_FAILED hr); [discriminate |].
  destruct (read_c_string _ sz') as [s |] eqn:Hread; [| discriminate].
  simpl. intros [= <-]. apply read_c_string_length in Hread.
  change (N.to_nat (maxCharCount + 1)) with (S (N.to_nat maxCharCount)) in Hread.
  lia.
Qed.

(** If the base class is built, the construction on a handle that is not
    valid returns an object with an empty intent id. *)
Lemma IntentRecognitionResult_ctor_invalid (site : call_stack)
    (hresult : SPXRESULTHANDLE) (b : RecognitionResult) :
  recognizer_result_handle_is_valid hresult = false ->
  RecognitionResult_ctor
    ("IntentRecognitionResult::IntentRecognitionResult" :: site) hresult
    = Returned b ->
  exists this : IntentRecognitionResult,
    IntentRecognitionResult_ctor site hresult = Some (Returned this) /\
    IntentId this = "".
Proof.
  intros Hinvalid Hbase. unfold IntentRecognitionResult_ctor.
  rewrite Hbase, PopulateIntentFields_invalid by assumption.
  eexists. split; reflexivity.
Qed.
End IntentFacts.






(** ** Lifetime of a handle *)

Lemma sample_issues_unused : @issues_unused sample_handle_table_h.
Proof.
  intros T tbl t. simpl. apply not_elem_of_dom, is_fresh.
Qed.

Section HandleTableFacts.
Context `{spxerror_h} `{handle_table_h} {T : Type}.
Hypothesis Hunused : issues_unused.

Lemma Release_tracked (tbl : gmap N T) (h : N) (t : T) :
  tbl !! h = Some t -> Release tbl h = (HrOk tt, delete h tbl).
Proof. intros Hh. unfold Release. by rewrite Hh. Qed.

Lemma Release_untracked (tbl : gmap N T) (h : N) :
  tbl !! h = None -> Release tbl h = (HrFail SPXERR_NOT_FOUND, tbl).
Proof. intros Hh. unfold Release. by rewrite Hh. Qed.

(** A tracked handle stays tracked, with its object, through every call
    that does not release it. *)
Lemma table_step_keeps (tbl : gmap N T) (op : table_op T) (h : N) (t : T) :
  tbl !! h = Some t ->
  is_release_of h op = false ->
  table_step tbl op !! h = Some t.
Proof.
  intros Hh Hop. destruct op as [t' | h' | h']; simpl in *.
  - rewrite lookup_insert_ne; [assumption |].
    intros Heq. pose proof (Hunused T tbl t') as Hfresh.
    rewrite Heq in Hfresh. congruence.
  - assumption.
  - apply N.eqb_neq in Hop. unfold Release.
    destruct (tbl !! h'); simpl; [| assumption].
    by rewrite lookup_delete_ne.
Qed.

Lemma table_run_keeps (ops : list (table_op T)) :
  forall (tbl : gmap N T) (h : N) (t : T),
    tbl !! h = Some t ->
    existsb (is_release_of h) ops = false ->
    table_run ops tbl !! h = Some t.
Proof.
  induction ops as [| op ops IH]; intros tbl h t Hh Hops; [assumption |].
  simpl in Hops. apply orb_false_elim in Hops as [Hop Hops].
  simpl. apply IH; [| assumption]. by apply table_step_keeps.
Qed.

(** A handle that is not tracked stays so until a [Track] issues it. *)
Lemma table_run_stays_released (ops : list (table_op T)) :
  forall (tbl : gmap N T) (h : N),
    tbl !! h = None ->
    issues_again h ops tbl = false ->
    table_run ops tbl !! h = None.
Proof.
  induction ops as [| op ops IH]; intros tbl h Hh Hops; [assumption |].
  simpl in Hops. apply orb_false_elim in Hops as [Hop Hops].
  simpl. apply IH; [| assumption].
  destruct op as [t' | h' | h']; simpl in *.
  - apply N.eqb_neq in Hop. by rewrite lookup_insert_ne.
  - assumption.
  - unfold Release. destruct (tbl !! h') eqn:Hh'; simpl; [| assumption].
    destruct (decide (h' = h)) as [-> | Hne]; [congruence |].
    by rewrite lookup_delete_ne.
Qed.
End HandleTableFacts.

(** A stored record stays readable, as it was stored, through every later
    use of the table that does not release its handle. *)
Lemma StoreException_persistent
    `{spxerror_h} `{debug_utils_h} `{cxx_string} `{handle_table_h}
    (errorHandles : gmap N ExceptionWithCallStack) (ex : ExceptionWithCallStack)
    (later : list (table_op ExceptionWithCallStack)) :
  issues_unused ->
  let '(h, errorHandles', _) := StoreException errorHandles ex in
  existsb (is_release_of h) later = false ->
  Resolve (table_run later errorHandles') h = HrOk ex.
Proof.
  intros Hunused.
  pose proof (StoreException_stored errorHandles ex) as Hstored.
  destruct (StoreException errorHandles ex) as [[h tbl'] source].
  intros Hlater. unfold Resolve in Hstored.
  match type of Hstored with
  | context [match ?entry with _ => _ end] =>
      destruct entry as [stored |] eqn:Hh; [| discriminate Hstored]
  end.
  injection Hstored as ->. unfold Resolve.
  by rewrite (table_run_keeps Hunused later tbl' h ex Hh Hlater).
Qed.

(** C5, as amended. A handle [h] that [Track] issued resolves to its
    object after any calls that do not release it, and is then released
    once with success; from there on, and until a [Track] issues the value
    [h] anew, every [Resolve] and every further [Release] of [h] fails
    with [SPXERR_NOT_FOUND] and changes nothing. *)
Theorem handle_lifetime `{spxerror_h} `{handle_table_h} {T : Type}
    (tbl : gmap N T) (t : T) (ops1 ops2 : list (table_op T)) :
  issues_unused ->
  let '(h, tbl1) := TrackHandle tbl t in
  existsb (is_release_of h) ops1 = false ->
  let tbl2 := table_run ops1 tbl1 in
  Resolve tbl2 h = HrOk t /\
  IsValid tbl2 h = true /\
  let '(released, tbl3) := Release tbl2 h in
  released = HrOk tt /\
  (issues_again h ops2 tbl3 = false ->
   let tbl4 := table_run ops2 tbl3 in
   Resolve tbl4 h = HrFail SPXERR_NOT_FOUND /\
   Release tbl4 h = (HrFail SPXERR_NOT_FOUND, tbl4) /\
   IsValid tbl4 h = false).
Proof.
  intros Hunused.
  destruct (TrackHandle tbl t) as [h tbl1] eqn:Htrack.
  intros Hops1 tbl2.
  assert (Htbl1 : tbl1 !! h = Some t).
  { unfold TrackHandle in Htrack. injection Htrack as <- <-.
    apply lookup_insert_eq. }
  assert (Htbl2 : tbl2 !! h = Some t) by (by apply table_run_keeps).
  split; [unfold Resolve; by rewrite Htbl2 |].
  split; [unfold IsValid; rewrite Htbl2; by apply bool_decide_eq_true |].
  rewrite (Release_tracked tbl2 h t Htbl2).
  split; [reflexivity |].
  intros Hops2 tbl4.
  assert (Htbl4 : tbl4 !! h = None).
  { apply table_run_stays_released; [apply lookup_delete_eq | assumption]. }
  split; [unfold Resolve; by rewrite Htbl4 |].
  split; [by apply Release_untracked |].
  unfold IsValid. rewrite Htbl4. apply bool_decide_eq_false. by intros [? ?].
Qed.

Lemma handle_lifetime_witness :
  let ops1 : list (table_op string) := [OpTrack "b"; OpResolve 0; OpRelease 7] in
  let ops2 : list (table_op string) := [OpRelease 0; OpResolve 0; OpRelease 1] in
  let tbl2 :=
    @table_run sample_spxerror_h sample_handle_table_h string ops1
      (<[0 := "a"]> ∅) in
  @Resolve sample_spxerror_h string tbl2 0 = HrOk "a" /\
  IsValid tbl2 0 = true /\
  let tbl4 :=
    @table_run sample_spxerror_h sample_handle_table_h string ops2
      (delete 0 tbl2) in
  @Resolve sample_spxerror_h string tbl4 0 = HrFail 4 /\
  @Release sample_spxerror_h string tbl4 0 = (HrFail 4, tbl4) /\
  IsValid tbl4 0 = false.
Proof.
  intros ops1 ops2 tbl2.
  pose proof (@handle_lifetime sample_spxerror_h sample_handle_table_h string
                ∅ "a" ops1 ops2 sample_issues_unused) as Hlife.
  change (@TrackHandle sample_handle_table_h string ∅ "a")
    with (0, <[0 := "a"]> (∅ : gmap N string)) in Hlife.
  cbv beta iota zeta in Hlife.
  specialize (Hlife eq_refl).
  destruct Hlife as (Hresolve & Hvalid & Hlife).
  split; [exact Hresolve |]. split; [exact Hvalid |].
  change (@Release sample_spxerror_h string
            (@table_run sample_spxerror_h sample_handle_table_h string ops1
               (<[0 := "a"]> ∅)) 0)
    with (@HrOk unit tt, delete 0 tbl2) in Hlife.
  cbv beta iota zeta in Hlife.
  destruct Hlife as [_ Hlife]. exact (Hlife eq_refl).
Defined.

(** C5, as first stated, fails: after exactly one [Release] of a handle
    a later [Resolve] of it succeeds, and so does a second [Release], once
    a [Track] has given its value to another object. *)
Lemma handle_lifetime_counterexample :
  let '(h, tbl1) := @TrackHandle sample_handle_table_h string ∅ "a" in
  let '(released, tbl2) := @Release sample_spxerror_h string tbl1 h in
  let tbl3 := @table_run sample_spxerror_h sample_handle_table_h string
                [OpTrack "b"] tbl2 in
  released = HrOk tt /\
  @Resolve sample_spxerror_h string tbl3 h = HrOk "b" /\
  @Resolve sample_spxerror_h string tbl3 h
    <> HrFail (@SPXERR_NOT_FOUND sample_spxerror_h) /\
  (@Release sample_spxerror_h string tbl3 h).1 = HrOk tt.
Proof. vm_compute. repeat split. discriminate. Qed.

(** With the sample table the value of a released handle is issued anew
    by the next [Track], and it resolves again, to the new object. *)
Example handle_value_reused :
  let '(h, tbl1) :=
    @TrackHandle sample_handle_table_h string ∅ "a" in
  let tbl2 := (@Release sample_spxerror_h string tbl1 h).2 in
  let '(h', tbl3) := @TrackHandle sample_handle_table_h string tbl2 "b" in
  h' = h /\ @Resolve sample_spxerror_h string tbl3 h = HrOk "b".
Proof. vm_compute. split; reflexivity. Qed.

(** ** Immutability of a record *)

Section BridgeFacts.
Context `{spxerror_h} `{debug_utils_h} `{cxx_string} `{handle_table_h}.
Hypothesis Hunused : issues_unused.

(** No call of the bridge touches a record that is stored. *)
Lemma bridge_step_keeps (errorHandles : gmap N ExceptionWithCallStack)
    (op : bridge_op) (h : N) (stored : ExceptionWithCallStack) :
  errorHandles !! h = Some stored ->
  bridge_step errorHandles op !! h = Some stored.
Proof.
  intros Hh.
  assert (Htrack : forall t,
    (TrackHandle errorHandles t).2 !! h = Some stored).
  { intros t. unfold TrackHandle. cbn [snd].
    rewrite lookup_insert_ne; [assumption |].
    intros Heq. pose proof (Hunused _ errorHandles t) as Hfresh.
    rewrite Heq in Hfresh. congruence. }
  destruct op as [ex | site ex | h' | h' | h']; cbn [bridge_step];
    try assumption.
  - unfold StoreException, move_construct.
    match goal with
    | |- context [TrackHandle errorHandles ?t] =>
        specialize (Htrack t); destruct (TrackHandle errorHandles t)
    end.
    exact Htrack.
  - unfold StoreException_runtime_error. apply Htrack.
Qed.

Lemma bridge_run_keeps (ops : list bridge_op) :
  forall (errorHandles : gmap N ExceptionWithCallStack) (h : N)
         (stored : ExceptionWithCallStack),
    errorHandles !! h = Some stored ->
    bridge_run ops errorHandles !! h = Some stored.
Proof.
  induction ops as [| op ops IH]; intros errorHandles h stored Hh;
    [assumption |].
  cbn [bridge_run foldl]. apply IH. by apply bridge_step_keeps.
Qed.
End BridgeFacts.

(** What [StoreException] leaves in the object it is given: the code, and
    strings in the moved-from state. *)
Lemma StoreException_moved_from
    `{spxerror_h} `{debug_utils_h} `{cxx_string} `{handle_table_h}
    (errorHandles : gmap N ExceptionWithCallStack) (this : ExceptionWithCallStack) :
  let '(_, _, source) := StoreException errorHandles this in
  components source
  = (c_str (moved_from (what_arg (as_runtime_error this))),
     GetErrorCode this,
     c_str (moved_from (m_callstack this))).
Proof.
  unfold StoreException, move_construct.
  match goal with
  | |- context [TrackHandle errorHandles ?t] =>
      destruct (TrackHandle errorHandles t) as [h tbl']
  end.
  reflexivity.
Qed.

(** C8, as amended. The three components of a record are those its
    constructor gave it.  [StoreException] moves the record into the
    object that the table tracks: the stored record has the three
    components of the record as it was built, and keeps them through
    every later call of the bridge, be it a [GetErrorCode], a
    [GetCallStack] or a [what] through a handle or the storing of another
    exception through either overload.  The object that was given to
    [StoreException] keeps its code only: its message and its call stack
    are what the move left of them. *)
Theorem ExceptionRecord_immutable
    `{spxerror_h} `{debug_utils_h} `{cxx_string} `{handle_table_h}
    (errorHandles : gmap N ExceptionWithCallStack) (site : call_stack)
    (message : string) (error : SPXHR) (skipLevels : N)
    (later : list bridge_op) :
  issues_unused ->
  let this := ExceptionWithCallStack_from_message site message error skipLevels in
  let snapshot :=
    Debug_GetCallStack (ctor_frame :: site) (size_t_add skipLevels 1) true in
  components this = (c_str message, error, c_str snapshot) /\
  let '(h, errorHandles', source) := StoreException errorHandles this in
  components source
    = (c_str (moved_from message), error, c_str (moved_from snapshot)) /\
  exists stored : ExceptionWithCallStack,
    Resolve (bridge_run later errorHandles') h = HrOk stored /\
    components stored = (c_str message, error, c_str snapshot).
Proof.
  intros Hunused this snapshot. split; [reflexivity |].
  pose proof (StoreException_stored errorHandles this) as Hstored.
  pose proof (StoreException_moved_from errorHandles this) as Hsource.
  destruct (StoreException errorHandles this) as [[h tbl'] source].
  split; [exact Hsource |].
  exists this. split; [| reflexivity].
  unfold Resolve in Hstored.
  match type of Hstored with
  | context [match ?entry with _ => _ end] =>
      destruct entry as [stored |] eqn:Hh; [| discriminate Hstored]
  end.
  injection Hstored as ->. unfold Resolve.
  by rewrite (bridge_run_keeps Hunused later tbl' h this Hh).
Qed.

Lemma ExceptionRecord_immutable_witness :
  let later :=
    [DoWhat 0; DoStoreRuntimeError ["catch"] {| what_arg := "bad alloc" |};
     DoGetErrorCode 0;
     DoStoreException
       (@ExceptionWithCallStack_from_error sample_spxerror_h
          sample_debug_utils_h ["Connect"] 6 0);
     DoGetCallStack 0] in
  @issues_unused sample_handle_table_h /\
  let '(h, errorHandles', source) :=
    @StoreException sample_cxx_string sample_handle_table_h ∅
      (@ExceptionWithCallStack_from_message sample_debug_utils_h
         ["Recognize"] "no audio" 22 0) in
  components source = ("", 22, "") /\
  exists stored : ExceptionWithCallStack,
    @Resolve sample_spxerror_h _
      (@bridge_run sample_spxerror_h sample_debug_utils_h sample_cxx_string
         sample_handle_table_h later errorHandles') h = HrOk stored /\
    components stored = ("no audio", 22, "Recognize").
Proof.
  intros later. split; [exact sample_issues_unused |].
  exact (proj2 (@ExceptionRecord_immutable sample_spxerror_h sample_debug_utils_h
                  sample_cxx_string sample_handle_table_h ∅ ["Recognize"]
                  "no audio" 22 0 later sample_issues_unused)).
Defined.

(** C8, as first stated, fails: [StoreException] does not leave the three
    components of the record it is called on unchanged.  On the sample
    platform the message and the call stack of that object are empty
    afterwards. *)
Lemma ExceptionRecord_immutable_counterexample :
  let this :=
    @ExceptionWithCallStack_from_message sample_debug_utils_h
      ["Recognize"] "no audio" 22 0 in
  let '(_, _, source) :=
    @StoreException sample_cxx_string sample_handle_table_h ∅ this in
  components this = ("no audio", 22, "Recognize") /\
  components source = ("", 22, "") /\
  components source <> components this.
Proof. vm_compute. repeat split. discriminate. Qed.

(** ** Starting asynchronous operations *)

Section AsyncFacts.
Context `{spxerror_h} {Work Result : Type}.

(** Without an operation in the way, [Start] records a running
    operation and schedules its work. *)
Lemma Start_free (session : Session Work Result) (kind : OperationKind)
    (work : Work) :
  existsb (blocks kind) (operations session) = false ->
  exists handle session',
    Start session kind work = (HrOk handle, session') /\
    operations session' !! N.to_nat handle
      = Some {| op_kind := kind; op_state := Running |} /\
    scheduled session' = (scheduled session ++ [(handle, work)])%list.
Proof.
  intros Hfree. unfold Start. rewrite Hfree.
  eexists _, _. split; [reflexivity |]. simpl. split; [| reflexivity].
  rewrite Nat2N.id. apply list_lookup_middle. reflexivity.
Qed.

(** A terminal state is never left. *)
Lemma settle_terminal (session : Session Work Result) (handle : N)
    (op : AsyncOperation Result) (st : OperationState Result) :
  operations session !! N.to_nat handle = Some op ->
  is_terminal (op_state op) = true ->
  operations (settle session handle st) !! N.to_nat handle = Some op.
Proof.
  intros Hop Hterminal. unfold settle. simpl.
  rewrite list_lookup_alter_eq, Hop. simpl. rewrite Hterminal. reflexivity.
Qed.
End AsyncFacts.

(** C6. When an operation of the session has a kind that conflicts with
    the kind asked for and is not in a terminal state, [Start] fails at
    once with [SPXERR_ALREADY_IN_PROGRESS] and leaves the session as it
    was: no operation is added and no work is scheduled. *)
Theorem Start_conflict `{spxerror_h} {Work Result : Type}
    (session : Session Work Result) (kind : OperationKind) (work : Work)
    (op : AsyncOperation Result) :
  In op (operations session) ->
  conflicts kind (op_kind op) = true ->
  is_terminal (op_state op) = false ->
  Start session kind work = (HrFail SPXERR_ALREADY_IN_PROGRESS, session) /\
  operations (Start session kind work).2 = operations session /\
  scheduled (Start session kind work).2 = scheduled session.
Proof.
  intros Hin Hconflict Hterminal.
  assert (Hblocked : existsb (blocks kind) (operations session) = true).
  { apply existsb_exists. exists op. split; [assumption |].
    unfold blocks. by rewrite Hconflict, Hterminal. }
  unfold Start. rewrite Hblocked. repeat split.
Qed.

Lemma Start_conflict_witness :
  let running : AsyncOperation unit :=
    {| op_kind := StartContinuous; op_state := Running |} in
  let session : Session string unit :=
    {| operations := [running]; scheduled := [(0, "continuous")] |} in
  @Start sample_spxerror_h string unit session RecognizeOnce "once"
    = (HrFail 7, session) /\
  operations (@Start sample_spxerror_h string unit session RecognizeOnce "once").2
    = [running] /\
  scheduled (@Start sample_spxerror_h string unit session RecognizeOnce "once").2
    = [(0, "continuous")].
Proof.
  intros running session.
  apply (@Start_conflict sample_spxerror_h string unit session RecognizeOnce
           "once" running).
  - simpl. left. reflexivity.
  - reflexivity.
  - reflexivity.
Defined.

(** The scenario of the specification: a second start-continuous is
    refused while the first runs, and accepted once the first has reached
    a terminal state. *)
Example start_continuous_twice :
  let s0 : Session string unit := {| operations := []; scheduled := [] |} in
  let '(r1, s1) := @Start sample_spxerror_h _ _ s0 StartContinuous "first" in
  let '(r2, s2) := @Start sample_spxerror_h _ _ s1 StartContinuous "second" in
  let s3 := settle s2 0 (Completed tt) in
  let '(r3, s4) := @Start sample_spxerror_h _ _ s3 StartContinuous "third" in
  r1 = HrOk 0 /\ r2 = HrFail 7 /\ s2 = s1 /\ r3 = HrOk 1 /\
  scheduled s4 = [(0, "first"); (1, "third")].
Proof. vm_compute. repeat split. Qed.


(** ** Disconnecting subscribers *)

Lemma subscribed_true (id : SubscriptionId) (ev : EventSignal) :
  subscribed id ev = true <-> exists sub, sub ∈ subscribers ev /\ sub.1 = id.
Proof.
  unfold subscribed. rewrite existsb_exists. split.
  - intros (sub & Hin & Heq). exists sub. split.
    + by apply list_elem_of_In.
    + by apply N.eqb_eq.
  - intros (sub & Hin & Heq). exists sub. split.
    + by apply list_elem_of_In.
    + by apply N.eqb_eq.
Qed.

Lemma subscribed_false (id : SubscriptionId) (ev : EventSignal) :
  subscribed id ev = false <-> forall sub, sub ∈ subscribers ev -> sub.1 <> id.
Proof.
  rewrite <- not_true_iff_false, subscribed_true. split.
  - intros Hno sub Hin Heq. apply Hno. eauto.
  - intros Hall (sub & Hin & Heq). exact (Hall sub Hin Heq).
Qed.

Lemma delivered_to_spec (id : SubscriptionId) (ev : EventSignal) (rid : N) :
  rid ∈ delivered_to id ev <-> (rid, id) ∈ delivered ev.
Proof.
  unfold delivered_to. rewrite list_elem_of_fmap. split.
  - intros ([rid' id'] & -> & Hin). apply list_elem_of_filter in Hin as [Hid Hin].
    simpl in *. apply Is_true_eq_true, N.eqb_eq in Hid. by subst.
  - intros Hin. exists (rid, id). split; [reflexivity |].
    apply list_elem_of_filter. split; [| assumption].
    simpl. apply Is_true_eq_left, N.eqb_refl.
Qed.

(** Names the event and the statuses that the call of [run_callback] in
    the goal gives. *)
Ltac run_the_callback ev2 statuses :=
  match goal with
  | |- context [run_callback ?tid ?body ?ev] =>
      destruct (run_callback tid body ev) as [ev2 statuses]
  end.

(** A callback only removes subscriptions. *)
Lemma run_callback_frame (tid : ThreadId) (body : Callback) :
  forall ev : EventSignal,
    let ev' := (run_callback tid body ev).1 in
    next_subscription ev' = next_subscription ev /\
    next_raise ev' = next_raise ev /\
    in_flight ev' = in_flight ev /\
    delivered ev' = delivered ev /\
    (forall sub, sub ∈ subscribers ev' -> sub ∈ subscribers ev).
Proof.
  induction body as [| action body IH]; intros ev; [by repeat split |].
  destruct action as [| id |]; simpl.
  - specialize (IH (with_subscribers ev [])).
    destruct (run_callback tid body (with_subscribers ev [])) as [ev2 statuses].
    simpl in *. destruct IH as (? & ? & ? & ? & Hsubs).
    repeat split; try assumption.
    intros sub Hin. apply Hsubs in Hin. by apply elem_of_nil in Hin.
  - match goal with |- context [run_callback tid body ?e] => specialize (IH e) end.
    run_the_callback ev2 statuses.
    simpl in *. destruct IH as (? & ? & ? & ? & Hsubs).
    repeat split; try assumption.
    intros sub Hin. apply Hsubs in Hin.
    by apply list_elem_of_filter in Hin as [_ Hin].
  - by repeat split.
Qed.

(** What [Deliver] does, seen from outside. *)
Lemma Deliver_frame (rid : N) (ev : EventSignal) :
  let ev' := (Deliver rid ev).1 in
  next_subscription ev' = next_subscription ev /\
  next_raise ev' = next_raise ev /\
  (forall sub, sub ∈ subscribers ev' -> sub ∈ subscribers ev) /\
  (forall r', r' ∈ in_flight ev' ->
     exists r, r ∈ in_flight ev /\ raise_id r = raise_id r' /\
       forall sub, sub ∈ raise_pending r' -> sub ∈ raise_pending r) /\
  (forall d, d ∈ delivered ev' ->
     d ∈ delivered ev \/
     exists r, r ∈ in_flight ev /\ raise_id r = d.1 /\
       exists sub, sub ∈ raise_pending r /\ sub.1 = d.2).
Proof.
  unfold Deliver.
  destruct (find _ (in_flight ev)) as [r |] eqn:Hfind.
  - apply find_some in Hfind as [Hr Hrid].
    apply list_elem_of_In in Hr. apply N.eqb_eq in Hrid.
    destruct (raise_pending r) as [| [id callback] pending] eqn:Hpending.
    + simpl. repeat split; try done.
      * intros r' Hin. apply list_elem_of_filter in Hin as [_ Hin].
        exists r'. eauto.
      * eauto.
    + match goal with |- context [run_callback ?t ?b ?e] =>
        pose proof (run_callback_frame t b e) as Hframe;
        destruct (run_callback t b e) as [ev2 statuses] end.
      simpl in *. destruct Hframe as (-> & -> & -> & -> & Hsubs).
      repeat split; try done.
      * intros r' Hin. apply list_elem_of_fmap in Hin as (r1 & -> & Hin).
        unfold set_pending.
        destruct (N.eqb_spec (raise_id r1) rid) as [Heq | Hne]; simpl.
        -- exists r. split; [assumption |]. split; [congruence |].
           intros sub Hsub. rewrite Hpending. by apply elem_of_cons; right.
        -- exists r1. eauto.
      * intros d Hin. apply elem_of_app in Hin as [Hin | Hin]; [by left |].
        apply list_elem_of_singleton in Hin as ->. right.
        exists r. split; [assumption |]. split; [assumption |].
        exists (id, callback). split; [| reflexivity].
        rewrite Hpending. by apply elem_of_cons; left.
  - simpl. repeat split; try done.
    + intros r' Hin. exists r'. eauto.
    + eauto.
Qed.

Lemma event_step_wf (ev : EventSignal) (op : event_op) :
  event_wf ev -> event_wf (event_step ev op).
Proof.
  intros (Hsubs & Hraises & Hdelivered).
  destruct op as [callback | tid id | tid | tid | rid]; unfold event_wf; simpl.
  - repeat split; try assumption. intros sub Hin.
    apply elem_of_app in Hin as [Hin | Hin].
    + specialize (Hsubs sub Hin). lia.
    + apply list_elem_of_singleton in Hin as ->. simpl. lia.
  - repeat split; try assumption. intros sub Hin.
    apply list_elem_of_filter in Hin as [_ Hin]. by apply Hsubs.
  - repeat split; try assumption. intros sub Hin. by apply elem_of_nil in Hin.
  - repeat split; try assumption.
    + intros r Hin. apply elem_of_cons in Hin as [-> | Hin].
      * simpl. lia.
      * specialize (Hraises r Hin). lia.
    + intros d Hin. specialize (Hdelivered d Hin). lia.
  - destruct (Deliver_frame rid ev) as (Hns & Hnr & Hs & Hf & Hd).
    repeat split.
    + intros sub Hin. rewrite Hns. by apply Hsubs, Hs.
    + intros r' Hin. rewrite Hnr.
      destruct (Hf r' Hin) as (r & Hr & <- & _). by apply Hraises.
    + intros d Hin. rewrite Hnr. destruct (Hd d Hin) as [Hold | (r & Hr & <- & _)].
      * by apply Hdelivered.
      * by apply Hraises.
Qed.

Lemma event_run_wf (ops : list event_op) :
  forall ev : EventSignal, event_wf ev -> event_wf (event_run ops ev).
Proof.
  induction ops as [| op ops IH]; intros ev Hwf; [assumption |].
  simpl. apply IH. by apply event_step_wf.
Qed.

Lemma new_event_wf : event_wf new_event.
Proof. repeat split; intros ? Hin; by apply elem_of_nil in Hin. Qed.

Lemma event_step_next_subscription (ev : EventSignal) (op : event_op) :
  next_subscription ev <= next_subscription (event_step ev op).
Proof.
  destruct op as [callback | tid id | tid | tid | rid]; simpl; try lia.
  destruct (Deliver_frame rid ev) as (-> & _). lia.
Qed.

Lemma event_step_disconnected (id : SubscriptionId) (first : N)
    (ev : EventSignal) (op : event_op) :
  disconnected_since id first ev ->
  disconnected_since id first (event_step ev op).
Proof.
  intros (Hsubs & Hid & Hfirst & Hpending & Hdelivered).
  destruct op as [callback | tid id' | tid | tid | rid];
    unfold disconnected_since; simpl.
  - repeat split; try assumption; simpl; [| lia].
    intros sub Hin. apply elem_of_app in Hin as [Hin | Hin].
    + by apply Hsubs.
    + apply list_elem_of_singleton in Hin as ->. simpl. lia.
  - repeat split; try assumption. intros sub Hin.
    apply list_elem_of_filter in Hin as [_ Hin]. by apply Hsubs.
  - repeat split; try assumption. intros sub Hin. by apply elem_of_nil in Hin.
  - repeat split; try assumption; simpl; [lia |].
    intros r Hin Hr sub Hsub. apply elem_of_cons in Hin as [-> | Hin].
    + by apply Hsubs.
    + by apply (Hpending r Hin Hr).
  - destruct (Deliver_frame rid ev) as (Hns & Hnr & Hs & Hf & Hd).
    repeat split.
    + intros sub Hin. by apply Hsubs, Hs.
    + by rewrite Hns.
    + by rewrite Hnr.
    + intros r' Hin Hr' sub Hsub.
      destruct (Hf r' Hin) as (r & Hr & Hrid & Hsnap).
      apply (Hpending r Hr); [by rewrite Hrid | by apply Hsnap].
    + intros d Hin Hd2. destruct (Hd d Hin) as [Hold | (r & Hr & Hrid & sub & Hsub & Hsub1)].
      * by apply Hdelivered.
      * destruct (N.lt_ge_cases (d.1) first) as [Hlt | Hge]; [assumption |].
        exfalso. apply (Hpending r Hr) with sub; [by rewrite Hrid | exact Hsub | congruence].
Qed.

Lemma event_run_disconnected (id : SubscriptionId) (first : N)
    (ops : list event_op) :
  forall ev : EventSignal,
    disconnected_since id first ev ->
    disconnected_since id first (event_run ops ev).
Proof.
  induction ops as [| op ops IH]; intros ev Hinv; [assumption |].
  simpl. apply IH. by apply event_step_disconnected.
Qed.

(** A disconnect by a thread that is dispatching the event does not
    wait. *)
Lemma disconnect_wait_dispatching (tid : ThreadId) (ev : EventSignal) :
  is_dispatching tid ev = true -> disconnect_wait tid ev = Proceeded.
Proof. intros Hd. unfold disconnect_wait. by rewrite Hd. Qed.

Lemma run_callback_proceeds (tid : ThreadId) (body : Callback) :
  forall ev : EventSignal,
    is_dispatching tid ev = true ->
    Forall (fun status => status = Proceeded) (run_callback tid body ev).2.
Proof.
  induction body as [| action body IH]; intros ev Hd; [constructor |].
  destruct action as [| id |]; simpl.
  - match goal with |- context [run_callback tid body ?e] => specialize (IH e Hd) end.
    run_the_callback ev2 statuses.
    simpl in *. constructor; [by apply disconnect_wait_dispatching | assumption].
  - match goal with |- context [run_callback tid body ?e] => specialize (IH e Hd) end.
    run_the_callback ev2 statuses.
    simpl in *. constructor; [by apply disconnect_wait_dispatching | assumption].
  - constructor.
Qed.

(** The disconnects that a callback makes while its raise delivers to it
    all go on without waiting. *)
Lemma Deliver_proceeds (rid : N) (ev : EventSignal) :
  Forall (fun status => status = Proceeded) (Deliver rid ev).2.
Proof.
  unfold Deliver.
  destruct (find _ (in_flight ev)) as [r |] eqn:Hfind; [| constructor].
  apply find_some in Hfind as [Hr Hrid].
  destruct (raise_pending r) as [| [id callback] pending]; [constructor |].
  apply run_callback_proceeds. unfold is_dispatching. simpl.
  apply existsb_exists. exists (set_pending rid pending r). split.
  - apply in_map_iff. exists r. split; [reflexivity | assumption].
  - unfold set_pending. destruct (N.eqb (raise_id r) rid); simpl; apply N.eqb_refl.
Qed.

Lemma find_set_pending (rid rid' : N)
    (pending : list (SubscriptionId * Callback)) (raises : list Raise) :
  find (fun r => N.eqb (raise_id r) rid) (set_pending rid' pending <$> raises)
  = set_pending rid' pending <$> find (fun r => N.eqb (raise_id r) rid) raises.
Proof.
  induction raises as [| r0 raises IH]; [reflexivity |].
  cbn [fmap list_fmap find].
  assert (Hid : raise_id (set_pending rid' pending r0) = raise_id r0).
  { unfold set_pending. by destruct (N.eqb (raise_id r0) rid'). }
  rewrite Hid. destruct (N.eqb (raise_id r0) rid); [reflexivity | exact IH].
Qed.

(** A raise goes to its end: each step takes one subscription off what is
    pending, and when nothing is pending the step takes the raise out of
    the raises in flight. *)
Lemma Deliver_makes_progress (rid : N) (ev : EventSignal) (r : Raise) :
  find (fun r => N.eqb (raise_id r) rid) (in_flight ev) = Some r ->
  match raise_pending r with
  | [] => forall r', r' ∈ in_flight (Deliver rid ev).1 -> raise_id r' <> rid
  | _ :: pending =>
      exists r', find (fun r => N.eqb (raise_id r) rid) (in_flight (Deliver rid ev).1)
                   = Some r' /\ raise_pending r' = pending
  end.
Proof.
  intros Hfind. unfold Deliver. rewrite Hfind.
  destruct (raise_pending r) as [| [id callback] pending] eqn:Hpending.
  - simpl. intros r' Hin. apply list_elem_of_filter in Hin as [Hne _].
    apply Is_true_eq_true, negb_true_iff, N.eqb_neq in Hne. exact Hne.
  - match goal with |- context [run_callback ?t ?b ?e] =>
      pose proof (run_callback_frame t b e) as Hframe;
      destruct (run_callback t b e) as [ev2 statuses] end.
    cbn [fst in_flight] in *. destruct Hframe as (_ & _ & -> & _).
    rewrite find_set_pending, Hfind. eexists. split; [reflexivity |].
    apply find_some in Hfind as [_ Hrid].
    unfold set_pending. by rewrite Hrid.
Qed.

(** A callback that makes a disconnect of [id] leaves an event without
    that subscription. *)
Lemma run_callback_disconnects (tid : ThreadId) (id : SubscriptionId)
    (body : Callback) :
  callback_disconnects id body = true ->
  forall (ev : EventSignal) (sub : SubscriptionId * Callback),
    sub ∈ subscribers (run_callback tid body ev).1 -> sub.1 <> id.
Proof.
  induction body as [| action body IH]; intros Hbody ev sub Hsub;
    [discriminate |].
  destruct action as [| id' |]; cbn [callback_disconnects] in Hbody;
    [| | discriminate].
  - cbn [run_callback DisconnectAll] in Hsub.
    pose proof (run_callback_frame tid body (with_subscribers ev []))
      as (_ & _ & _ & _ & Hsubs).
    destruct (run_callback tid body (with_subscribers ev [])) as [ev2 statuses].
    cbn [fst] in *. apply Hsubs in Hsub. by apply elem_of_nil in Hsub.
  - cbn [run_callback Disconnect] in Hsub.
    match type of Hsub with
    | context [run_callback tid body ?ev1] =>
        pose proof (run_callback_frame tid body ev1) as (_ & _ & _ & _ & Hsubs);
        pose proof (IH) as IH';
        specialize (fun H => IH' H ev1 sub);
        destruct (run_callback tid body ev1) as [ev2 statuses]
    end.
    cbn [fst] in *.
    destruct (N.eqb_spec id' id) as [-> | Hne].
    + apply Hsubs in Hsub. cbn [subscribers with_subscribers] in Hsub.
      apply list_elem_of_filter in Hsub as [Hkept _].
      apply Is_true_eq_true, negb_true_iff, N.eqb_neq in Hkept. exact Hkept.
    + cbn [orb] in Hbody. by apply IH'.
Qed.

(** Each of the disconnects of [id] unsubscribes it. *)
Lemma event_step_disconnects (id : SubscriptionId) (ev : EventSignal)
    (op : event_op) :
  is_disconnect_of id ev op = true ->
  subscribed id (event_step ev op) = false.
Proof.
  intros Hop. apply subscribed_false.
  destruct op as [callback | tid id' | tid | tid | rid];
    cbn [is_disconnect_of] in Hop; try discriminate;
    cbn [event_step]; intros sub Hsub.
  - cbn [Disconnect fst subscribers with_subscribers] in Hsub.
    apply N.eqb_eq in Hop as ->.
    apply list_elem_of_filter in Hsub as [Hkept _].
    apply Is_true_eq_true, negb_true_iff, N.eqb_neq in Hkept. exact Hkept.
  - cbn [DisconnectAll fst subscribers with_subscribers] in Hsub.
    by apply elem_of_nil in Hsub.
  - unfold Deliver in Hsub.
    destruct (find _ (in_flight ev)) as [r |]; [| discriminate].
    destruct (raise_pending r) as [| [id0 callback] pending]; [discriminate |].
    by apply (run_callback_disconnects _ _ _ Hop) in Hsub.
Qed.

(** A raise in flight reaches its end by steps of its own, one for each
    subscription of its snapshot that is still pending and one more,
    whatever its callbacks do. *)
Lemma deliver_to_end_ends (rid : N) (steps : nat) :
  forall (ev : EventSignal) (r : Raise),
    find (fun r => N.eqb (raise_id r) rid) (in_flight ev) = Some r ->
    length (raise_pending r) = steps ->
    forall r', r' ∈ in_flight (deliver_to_end rid (S steps) ev) ->
               raise_id r' <> rid.
Proof.
  induction steps as [| steps IH]; intros ev r Hfind Hlength;
    pose proof (Deliver_makes_progress rid ev r Hfind) as Hprogress;
    destruct (raise_pending r) as [| sub pending]; try discriminate.
  - exact Hprogress.
  - destruct Hprogress as (r1 & Hfind1 & Hpending1).
    cbn [deliver_to_end]. cbn [deliver_to_end] in IH.
    apply (IH _ r1 Hfind1). rewrite Hpending1. by injection Hlength.
Qed.

(** C7. When a subscriber of an event is disconnected, by [DisconnectAll]
    or by [Disconnect] of that subscriber, called from any thread or made
    by a callback of that same event while a raise runs it, the
    subscriber is registered no more, and every raise that delivers to it
    afterwards is one that had started before the disconnect: no raise
    that starts later reaches it.  A disconnect made by a callback never
    waits, and every raise in flight after the disconnect, the one that
    ran the callback among them, reaches its end by steps of its own. *)
Theorem disconnect_stops_delivery
    (pre post : list event_op) (op : event_op) (id : SubscriptionId) :
  let ev1 := event_run pre new_event in
  let ev2 := event_step ev1 op in
  let ev3 := event_run post ev2 in
  subscribed id ev1 = true ->
  is_disconnect_of id ev1 op = true ->
  subscribed id ev2 = false /\
  (forall rid : N, rid ∈ delivered_to id ev3 -> rid < next_raise ev2) /\
  (forall (rid : N) (ev : EventSignal),
     Forall (fun status => status = Proceeded) (Deliver rid ev).2) /\
  (forall (rid : N) (r : Raise),
     find (fun r => N.eqb (raise_id r) rid) (in_flight ev2) = Some r ->
     forall r', r' ∈ in_flight
                  (deliver_to_end rid (S (length (raise_pending r))) ev2) ->
                raise_id r' <> rid).
Proof.
  intros ev1 ev2 ev3 Hbefore Hop.
  assert (Hafter : subscribed id ev2 = false)
    by by apply event_step_disconnects.
  split; [exact Hafter |].
  split; [| split; [intros rid ev; apply Deliver_proceeds |
                     intros rid r Hfind;
                     by apply (deliver_to_end_ends rid _ ev2 r)]].
  assert (Hwf1 : event_wf ev1) by apply event_run_wf, new_event_wf.
  assert (Hwf2 : event_wf ev2) by by apply event_step_wf.
  assert (Hinv : disconnected_since id (next_raise ev2) ev2).
  { destruct Hwf1 as (Hsubs1 & _ & _). destruct Hwf2 as (_ & Hraises2 & Hdelivered2).
    apply subscribed_true in Hbefore as (sub & Hsub & <-).
    repeat split.
    - by apply subscribed_false.
    - eapply N.lt_le_trans; [by apply Hsubs1 |].
      apply event_step_next_subscription.
    - reflexivity.
    - intros r Hr Hge. specialize (Hraises2 r Hr). lia.
    - intros d Hd _. by apply Hdelivered2. }
  apply (event_run_disconnected id (next_raise ev2) post) in Hinv.
  destruct Hinv as (_ & _ & _ & _ & Hdelivered).
  intros rid Hrid. apply delivered_to_spec in Hrid.
  by apply (Hdelivered (rid, id)).
Qed.

Lemma disconnect_stops_delivery_witness :
  let pre := [DoConnect [ActDisconnectAll]; DoRaise 1] in
  let post := [DoDeliver 0; DoRaise 1; DoDeliver 1; DoDeliver 1] in
  let ev1 := event_run pre new_event in
  let ev2 := event_step ev1 (DoDeliver 0) in
  let ev3 := event_run post ev2 in
  subscribed 0 ev1 = true /\
  is_disconnect_of 0 ev1 (DoDeliver 0) = true /\
  delivered_to 0 ev3 = [0] /\
  subscribed 0 ev2 = false /\
  (forall rid : N, rid ∈ delivered_to 0 ev3 -> rid < 1).
Proof.
  intros pre post ev1 ev2 ev3.
  split; [reflexivity |]. split; [reflexivity |]. split; [reflexivity |].
  pose proof (disconnect_stops_delivery pre post (DoDeliver 0) 0
                eq_refl eq_refl) as (Hgone & Hlater & _).
  split; [exact Hgone | exact Hlater].
Defined.

(** The scenario of the test suite: the callback disconnects every
    subscriber of the event it is called for.  The raise in flight still
    delivers to the second subscriber of its snapshot; the next raise
    delivers to nobody. *)
Example disconnect_all_in_callback :
  let ev := event_run
    [DoConnect [ActDisconnectAll]; DoConnect []; DoRaise 1;
     DoDeliver 0; DoDeliver 0; DoDeliver 0;
     DoRaise 1; DoDeliver 1] new_event in
  delivered ev = [(0, 0); (0, 1)] /\ subscribers ev = [] /\ in_flight ev = [].
Proof. vm_compute. repeat split. Qed.

(** A disconnect from another thread while a raise is in flight has to
    wait for that raise; the same call from the dispatching thread does
    not. *)
Example disconnect_from_outside_waits :
  let ev := event_run [DoConnect []; DoRaise 1] new_event in
  (DisconnectAll 2 ev).2 = WaitsFor [0] /\ (DisconnectAll 1 ev).2 = Proceeded.
Proof. vm_compute. split; reflexivity. Qed.


(** ** The bridge on a sample platform *)

Section Samples.
Local Existing Instance sample_spxerror_h.
Local Existing Instance sample_debug_utils_h.
Local Existing Instance sample_cxx_string.
Local Existing Instance sample_automatic_storage.
Local Existing Instance sample_handle_table_h.
Local Existing Instance sample_speechapi_c_h.
Local Existing Instance sample_recognition_result_h.

(** A record thrown with a code of its own and caught as a
    [std::runtime_error] is stored with the catch-all code and with the
    stack of the place that stores it. *)
Example runtime_error_overload_forgets :
  let thrown := ExceptionWithCallStack_from_message ["Recognize"] "no audio" 22 0 in
  let '(h, errorHandles) :=
    StoreException_runtime_error ["catch"] ∅ (as_runtime_error thrown) in
  components thrown = ("no audio", 22, "Recognize") /\
  components <$> errorHandles !! h
    = Some ("no audio", 3, "StoreException < catch").
Proof. vm_compute. split; reflexivity. Qed.

(** The same record stored through the overload for records keeps its
    code and its stack. *)
Example record_overload_keeps :
  let thrown := ExceptionWithCallStack_from_message ["Recognize"] "no audio" 22 0 in
  let '(h, errorHandles, _) := StoreException ∅ thrown in
  components <$> errorHandles !! h = Some ("no audio", 22, "Recognize").
Proof. vm_compute. reflexivity. Qed.

(** What [StoreException] leaves of its argument on the sample platform:
    the code, and strings in the moved-from state. *)
Example record_overload_source :
  let thrown := ExceptionWithCallStack_from_message ["Recognize"] "no audio" 22 0 in
  let '(_, _, source) := StoreException ∅ thrown in
  components source = ("", 22, "").
Proof. vm_compute. reflexivity. Qed.

(** What the throw helpers carry. *)
Example throw_helpers_codes :
  ThrowWithCallstack [] 27 0
    = Thrown (ExceptionWithCallStack_from_error ["ThrowWithCallstack"] 27 1) /\
  (exists ex, ThrowRuntimeError [] "x" 0 = Thrown ex /\
     stringify (GetErrorCode ex) = "0x5 (SPXERR_INVALID_ARG)" /\
     what ex = "Runtime error: x") /\
  (exists ex, ThrowInvalidArgumentException [] "x" 0 = Thrown ex /\
     stringify (GetErrorCode ex) = "0x5 (SPXERR_INVALID_ARG)") /\
  (exists ex, ThrowLogicError [] "x" 0 = Thrown ex /\
     stringify (GetErrorCode ex) = "0x5 (SPXERR_INVALID_ARG)").
Proof.
  split; [reflexivity |].
  repeat split; eexists; (split; [reflexivity |]); vm_compute; auto.
Qed.

(** The constructor of [IntentRecognitionResult] on a handle that is not
    valid, on a valid handle with an intent id, on a valid handle for
    which the C API fails, and on a valid handle whose buffer is left
    without a terminator. *)
Example intent_result_invalid_handle :
  IntentRecognitionResult_ctor [] 9
    = Some (Returned {| base := 9; m_intentId := "" |}).
Proof. vm_compute. reflexivity. Qed.

Example intent_result_valid_handle :
  IntentRecognitionResult_ctor [] 1
    = Some (Returned {| base := 1; m_intentId := "TurnOn" |}).
Proof. vm_compute. reflexivity. Qed.

Example intent_result_failing_call :
  exists ex, IntentRecognitionResult_ctor [] 2 = Some (Thrown ex) /\
             GetErrorCode ex = 5.
Proof. eexists. split; vm_compute; reflexivity. Qed.

Example intent_result_unterminated :
  IntentRecognitionResult_ctor [] 3 = None.
Proof. vm_compute. reflexivity. Qed.
End Samples.


(** * Further properties of the sources *)

(** ** The formatted code read back *)

Lemma hex_digits_append (fuel : nat) :
  forall (n : N) (acc t : string),
    hex_digits fuel n acc +:+ t = hex_digits fuel n (acc +:+ t).
Proof.
  induction fuel as [| fuel IH]; intros n acc t; cbn [hex_digits].
  - reflexivity.
  - destruct (N.eqb (n / 16) 0); [reflexivity |].
    rewrite IH. reflexivity.
Qed.

Lemma hex_prefix_hex_digits (fuel : nat) :
  forall (n : N) (acc : string),
    hex_prefix (hex_digits fuel n acc) = hex_digits fuel n (hex_prefix acc).
Proof.
  assert (Hdigit : forall n acc,
    hex_prefix (String (hex_digit (n mod 16)) acc)
    = String (hex_digit (n mod 16)) (hex_prefix acc)).
  { intros n acc. cbn [hex_prefix].
    rewrite hex_digit_value_hex_digit by (apply N.mod_lt; lia). reflexivity. }
  induction fuel as [| fuel IH]; intros n acc; cbn [hex_digits].
  - apply Hdigit.
  - destruct (N.eqb (n / 16) 0); [apply Hdigit |].
    rewrite IH, Hdigit. reflexivity.
Qed.

(** The digits of [put_hex] are read back whatever follows them, as long
    as it does not start with a digit. *)
Lemma hex_prefix_put_hex (n : N) (t : string) :
  hex_prefix t = "" -> hex_prefix (put_hex n +:+ t) = put_hex n.
Proof.
  intros Ht. unfold put_hex.
  rewrite hex_digits_append, hex_prefix_hex_digits.
  change ("" +:+ t) with t. rewrite Ht. reflexivity.
Qed.

Lemma append_nil_r (s : string) : s +:+ "" = s.
Proof.
  induction s as [| c s IH]; [reflexivity |].
  change (String c (s +:+ "") = String c s). by rewrite IH.
Qed.

Lemma stringify_shape `{spxerror_h} (hr : SPXHR) :
  exists t : string,
    stringify hr = String "0" (String "x" (put_hex hr +:+ t)) /\
    hex_prefix t = "".
Proof.
  unfold stringify. destruct (errorToString !! hr) as [name |].
  - exists (" (" +:+ name +:+ ")"). split; reflexivity.
  - exists "". split; [| reflexivity]. by rewrite append_nil_r.
Qed.

Lemma code_of_stringified_stringify `{spxerror_h} (hr : SPXHR) :
  code_of_stringified (stringify hr) = Some hr.
Proof.
  destruct (stringify_shape hr) as (t & -> & Ht).
  unfold code_of_stringified.
  rewrite hex_prefix_put_hex by assumption. apply hex_value_put_hex.
Qed.

Lemma stringify_inj `{spxerror_h} (hr hr' : SPXHR) :
  stringify hr = stringify hr' -> hr = hr'.
Proof.
  intros Heq. apply (f_equal code_of_stringified) in Heq.
  rewrite !code_of_stringified_stringify in Heq. congruence.
Qed.

(** X1. The code is read back from the string that [stringify] makes of
    it, with or without a name behind the digits; so two codes are never
    formatted alike. *)
Theorem stringify_roundtrip `{spxerror_h} (hr : SPXHR) :
  code_of_stringified (stringify hr) = Some hr /\
  forall hr' : SPXHR, stringify hr' = stringify hr -> hr' = hr.
Proof.
  split; [apply code_of_stringified_stringify |].
  intros hr'. apply stringify_inj.
Qed.

(** ** The message of a record built from a code *)

Lemma has_nul_append (s t : string) :
  has_nul (s +:+ t) = has_nul s || has_nul t.
Proof.
  induction s as [| c s IH]; [reflexivity |].
  change (has_nul (String c (s +:+ t)) = has_nul (String c s) || has_nul t).
  cbn [has_nul]. rewrite IH. by rewrite orb_assoc.
Qed.

Lemma has_nul_hex_digits (fuel : nat) :
  forall (n : N) (acc : string),
    has_nul (hex_digits fuel n acc) = has_nul acc.
Proof.
  assert (Hdigit : forall n acc,
    has_nul (String (hex_digit (n mod 16)) acc) = has_nul acc).
  { intros n acc. pose proof (N.mod_lt n 16 ltac:(lia)) as Hlt.
    generalize dependent (n mod 16). intros d Hlt.
    assert (Hcases : In d [0; 1; 2; 3; 4; 5; 6; 7; 8; 9; 10; 11; 12; 13; 14; 15]).
    { simpl. lia. }
    simpl in Hcases.
    repeat (destruct Hcases as [<- | Hcases]; [reflexivity |]).
    contradiction. }
  induction fuel as [| fuel IH]; intros n acc; cbn [hex_digits].
  - apply Hdigit.
  - destruct (N.eqb (n / 16) 0); [apply Hdigit |].
    rewrite IH. apply Hdigit.
Qed.

Lemma errorToString_names_no_nul `{spxerror_h} (hr : SPXHR) (name : string) :
  errorToString !! hr = Some name -> has_nul name = false.
Proof.
  intros Hfind. apply errorToString_Some in Hfind.
  unfold errorToString_entries in Hfind.
  repeat (apply elem_of_cons in Hfind as [[= _ ->] | Hfind]; [reflexivity |]).
  by apply elem_of_nil in Hfind.
Qed.

Lemma stringify_no_nul `{spxerror_h} (hr : SPXHR) :
  has_nul (stringify hr) = false.
Proof.
  unfold stringify.
  assert (Hhex : has_nul ("0x" +:+ put_hex hr) = false).
  { rewrite has_nul_append. unfold put_hex. by rewrite has_nul_hex_digits. }
  destruct (errorToString !! hr) as [name |] eqn:Hfind; [| exact Hhex].
  rewrite has_nul_append, Hhex, !has_nul_append.
  by rewrite (errorToString_names_no_nul hr name Hfind).
Qed.

Lemma from_error_what `{spxerror_h} `{debug_utils_h}
    (site : call_stack) (error : SPXHR) (skipLevels : N) :
  what (ExceptionWithCallStack_from_error site error skipLevels)
  = "Exception with an error code: " +:+ stringify error.
Proof.
  unfold what, runtime_error_what. cbn [as_runtime_error what_arg
    ExceptionWithCallStack_from_error].
  apply c_str_no_nul. rewrite has_nul_append, stringify_no_nul. reflexivity.
Qed.

(** X2. The message of a record built from a code alone is never cut
    short: [what()] is the whole of ["Exception with an error code: "]
    followed by the formatted code. *)
Theorem from_error_message_whole `{spxerror_h} `{debug_utils_h}
    (site : call_stack) (error : SPXHR) (skipLevels : N) :
  let ex := ExceptionWithCallStack_from_error site error skipLevels in
  what ex = "Exception with an error code: " +:+ stringify error /\
  has_nul (what ex) = false /\
  what ex = what_arg (as_runtime_error ex).
Proof.
  intros ex. unfold ex. rewrite from_error_what.
  split; [reflexivity |]. split; [| reflexivity].
  rewrite has_nul_append, stringify_no_nul. reflexivity.
Qed.

(** X3. For records built from a code alone, the message tells the code:
    two of them with the same [what()] carry the same code, wherever and
    with whatever skipped levels they were built; and the code is read
    back from the message. *)
Theorem from_error_message_tells_code `{spxerror_h} `{debug_utils_h}
    (site site' : call_stack) (error error' : SPXHR) (skipLevels skipLevels' : N) :
  let ex := ExceptionWithCallStack_from_error site error skipLevels in
  let ex' := ExceptionWithCallStack_from_error site' error' skipLevels' in
  (what ex = what ex' <-> GetErrorCode ex = GetErrorCode ex') /\
  (exists formatted : string,
     what ex = "Exception with an error code: " +:+ formatted /\
     code_of_stringified formatted = Some (GetErrorCode ex)).
Proof.
  intros ex ex'. unfold ex, ex'. rewrite !from_error_what. split.
  - split.
    + intros Heq. apply String.app_inj in Heq. by apply stringify_inj.
    + cbn [GetErrorCode m_error ExceptionWithCallStack_from_error].
      by intros ->.
  - exists (stringify error). split; [reflexivity |].
    apply code_of_stringified_stringify.
Qed.

(** ** The throw helpers *)

Lemma size_t_add_twice (skipLevels : N) :
  size_t_add (size_t_add skipLevels 1) 1 = (skipLevels + 2) mod 2 ^ size_t_bits.
Proof.
  unfold size_t_add. rewrite N.Div0.add_mod_idemp_l. f_equal. lia.
Qed.

(** X4. Every throw helper captures the stack from inside the
    constructor, on top of its own frame, and asks to skip two levels
    more than its caller asked for: the helper and the constructor are
    left out of the snapshot.  The sum is taken in [size_t], so asking for
    one of the two largest values wraps around to 0 or 1. *)
Theorem throw_helpers_skip_two `{spxerror_h} `{debug_utils_h}
    (site : call_stack) (hr : SPXHR) (msg : string) (skipLevels : N) :
  skipLevels < 2 ^ 64 ->
  let skipped :=
    if N.ltb skipLevels (2 ^ 64 - 2) then skipLevels + 2
    else skipLevels + 2 - 2 ^ 64 in
  let snapshot helper := Debug_GetCallStack (ctor_frame :: helper :: site) skipped true in
  m_callstack (thrown_by (ThrowWithCallstack site hr skipLevels))
    = snapshot "ThrowWithCallstack" /\
  m_callstack (thrown_by (ThrowRuntimeError site msg skipLevels))
    = snapshot "ThrowRuntimeError" /\
  m_callstack (thrown_by (ThrowInvalidArgumentException site msg skipLevels))
    = snapshot "ThrowInvalidArgumentException" /\
  m_callstack (thrown_by (ThrowLogicError site msg skipLevels))
    = snapshot "ThrowLogicError".
Proof.
  intros Hsize skipped snapshot.
  assert (Hskipped : size_t_add (size_t_add skipLevels 1) 1 = skipped).
  { rewrite size_t_add_twice. unfold skipped.
    change (2 ^ size_t_bits) with 18446744073709551616.
    change (2 ^ 64) with 18446744073709551616 in *.
    destruct (N.ltb_spec skipLevels (18446744073709551616 - 2)) as [Hlt | Hge].
    - apply N.mod_small. lia.
    - remember (skipLevels + 2 - 18446744073709551616) as wrapped eqn:Hwrapped.
      assert (Hsum : skipLevels + 2 = wrapped + 1 * 18446744073709551616) by lia.
      rewrite Hsum, N.Div0.mod_add. apply N.mod_small. lia. }
  unfold snapshot. rewrite <- Hskipped. repeat split.
Qed.

Lemma throw_helpers_skip_two_witness :
  let skipLevels := 2 ^ 64 - 1 in
  skipLevels < 2 ^ 64 /\
  m_callstack (thrown_by (@ThrowRuntimeError sample_spxerror_h
                 sample_debug_utils_h ["main"] "x" skipLevels))
  = @Debug_GetCallStack sample_debug_utils_h
      [ctor_frame; "ThrowRuntimeError"; "main"] 1 true.
Proof.
  intros skipLevels. split; [reflexivity |].
  apply (@throw_helpers_skip_two sample_spxerror_h sample_debug_utils_h
           ["main"] 0 "x" skipLevels).
  reflexivity.
Defined.

Lemma what_from_message_cons `{debug_utils_h} (site : call_stack) (c : ascii)
    (rest : string) (error : SPXHR) (skipLevels : N) :
  Ascii.eqb c Ascii.zero = false ->
  what (ExceptionWithCallStack_from_message site (String c rest) error skipLevels)
  = String c (c_str rest).
Proof.
  intros Hc. unfold what, runtime_error_what.
  cbn [as_runtime_error what_arg ExceptionWithCallStack_from_message c_str].
  by rewrite Hc.
Qed.

(** X5. The three throw helpers that take a message all carry the same
    code, and are told apart by their message only: whatever messages
    they are given, the [what()] of the records of two different helpers
    differ, and differ from the [what()] of a record thrown by
    [ThrowWithCallstack]. *)
Theorem throw_helpers_told_apart `{spxerror_h} `{debug_utils_h}
    (site : call_stack) (hr : SPXHR) (msg_r msg_i msg_l : string)
    (skipLevels : N) :
  let ex_r := thrown_by (ThrowRuntimeError site msg_r skipLevels) in
  let ex_i := thrown_by (ThrowInvalidArgumentException site msg_i skipLevels) in
  let ex_l := thrown_by (ThrowLogicError site msg_l skipLevels) in
  let ex_c := thrown_by (ThrowWithCallstack site hr skipLevels) in
  GetErrorCode ex_r = GetErrorCode ex_i /\
  GetErrorCode ex_i = GetErrorCode ex_l /\
  what ex_r <> what ex_i /\
  what ex_r <> what ex_l /\
  what ex_i <> what ex_l /\
  what ex_c <> what ex_r /\
  what ex_c <> what ex_i /\
  what ex_c <> what ex_l.
Proof.
  intros ex_r ex_i ex_l ex_c.
  assert (Hr : exists rest, what ex_r = String "R" rest).
  { eexists. unfold ex_r, ThrowRuntimeError, thrown_by.
    change ("Runtime error: " +:+ msg_r)
      with (String "R" ("untime error: " +:+ msg_r)).
    by apply what_from_message_cons. }
  assert (Hi : exists rest, what ex_i = String "I" rest).
  { eexists. unfold ex_i, ThrowInvalidArgumentException, thrown_by.
    change ("Invalid argument exception: " +:+ msg_i)
      with (String "I" ("nvalid argument exception: " +:+ msg_i)).
    by apply what_from_message_cons. }
  assert (Hl : exists rest, what ex_l = String "L" rest).
  { eexists. unfold ex_l, ThrowLogicError, thrown_by.
    change ("Logic error: " +:+ msg_l)
      with (String "L" ("ogic error: " +:+ msg_l)).
    by apply what_from_message_cons. }
  assert (Hc : exists rest, what ex_c = String "E" rest).
  { eexists. unfold ex_c, ThrowWithCallstack, thrown_by.
    rewrite from_error_what. reflexivity. }
  destruct Hr as [? ->], Hi as [? ->], Hl as [? ->], Hc as [? ->].
  repeat split; discriminate.
Qed.

(** ** The intent id that the constructor reads *)

Lemma read_c_string_prefix (cells : nat) :
  forall (sz : list ascii) (s : string),
    read_c_string cells sz = Some s ->
    exists rest : list ascii,
      sz = (list_ascii_of_string s ++ Ascii.zero :: rest)%list.
Proof.
  induction cells as [| cells IH]; intros sz s Hread; [discriminate |].
  destruct sz as [| c rest]; [discriminate |]. simpl in Hread.
  destruct (Ascii.eqb c Ascii.zero) eqn:Hc.
  - injection Hread as <-. apply Ascii.eqb_eq in Hc as ->. by exists rest.
  - destruct (read_c_string cells rest) as [s' |] eqn:Hrest; [| discriminate].
    injection Hread as <-. destruct (IH _ _ Hrest) as [rest' ->].
    by exists rest'.
Qed.

Section IntentIdFacts.
Context `{spxerror_h} `{debug_utils_h} `{automatic_storage}
        `{speechapi_c_h} `{recognition_result_h}.

(** What a construction that returns on a valid handle went through. *)
Lemma IntentRecognitionResult_ctor_returned (site : call_stack)
    (hresult : SPXRESULTHANDLE) (this : IntentRecognitionResult) :
  recognizer_result_handle_is_valid hresult = true ->
  IntentRecognitionResult_ctor site hresult = Some (Returned this) ->
  let '(hr, sz') :=
    IntentResult_GetIntentId hresult (indeterminate_chars 1025) 1024 in
  SPX_FAILED hr = false /\
  read_c_string 1025 sz' = Some (IntentId this).
Proof.
  intros Hvalid. unfold IntentRecognitionResult_ctor, PopulateIntentFields.
  rewrite Hvalid.
  destruct (RecognitionResult_ctor _ hresult) as [b | ex]; [| discriminate].
  change (N.to_nat (maxCharCount + 1)) with 1025%nat.
  change maxCharCount with 1024.
  destruct (IntentResult_GetIntentId hresult (indeterminate_chars 1025) 1024)
    as [hr sz'].
  unfold SPX_THROW_ON_FAIL. destruct (SPX_FAILED hr); [discriminate |].
  destruct (read_c_string 1025 sz') as [intentId |]; [| discriminate].
  simpl. intros [= <-]. split; reflexivity.
Qed.
End IntentIdFacts.

(** X7. When the construction on a valid handle returns, the call for
    the intent id had succeeded, and [IntentId] is the text that this call
    left in the array before its first NUL: it holds no NUL and has at
    most 1024 characters, whatever else the array holds. *)
Theorem IntentId_is_the_c_string
    `{spxerror_h} `{debug_utils_h} `{automatic_storage}
    `{speechapi_c_h} `{recognition_result_h}
    (site : call_stack) (hresult : SPXRESULTHANDLE)
    (this : IntentRecognitionResult) :
  recognizer_result_handle_is_valid hresult = true ->
  IntentRecognitionResult_ctor site hresult = Some (Returned this) ->
  let '(hr, sz') :=
    IntentResult_GetIntentId hresult (indeterminate_chars 1025) 1024 in
  hr = SPX_NOERROR /\
  (exists rest : list ascii,
     sz' = (list_ascii_of_string (IntentId this) ++ Ascii.zero :: rest)%list) /\
  has_nul (IntentId this) = false /\
  (String.length (IntentId this) <= 1024)%nat.
Proof.
  intros Hvalid Hctor.
  pose proof (IntentRecognitionResult_ctor_returned site hresult this Hvalid Hctor)
    as Hreturned.
  destruct (IntentResult_GetIntentId hresult (indeterminate_chars 1025) 1024)
    as [hr sz'].
  destruct Hreturned as [Hhr Hread]. split.
  - unfold SPX_FAILED in Hhr. apply negb_false_iff, N.eqb_eq in Hhr. exact Hhr.
  - split; [by apply (read_c_string_prefix 1025) |].
    split; [by apply (read_c_string_no_nul 1025 sz') |].
    apply read_c_string_length in Hread. lia.
Qed.

(** X8. When the base class is built and the call for the intent id on a
    valid handle reports a failure, the construction throws a record that
    carries that very status as its code, with the message of a record
    built from a code alone. *)
Theorem IntentRecognitionResult_ctor_failure
    `{spxerror_h} `{debug_utils_h} `{automatic_storage}
    `{speechapi_c_h} `{recognition_result_h}
    (site : call_stack) (hresult : SPXRESULTHANDLE) (b : RecognitionResult) :
  let frames := "IntentRecognitionResult::IntentRecognitionResult" :: site in
  let hr := (IntentResult_GetIntentId hresult (indeterminate_chars 1025) 1024).1 in
  recognizer_result_handle_is_valid hresult = true ->
  RecognitionResult_ctor frames hresult = Returned b ->
  hr <> SPX_NOERROR ->
  exists ex : ExceptionWithCallStack,
    IntentRecognitionResult_ctor site hresult = Some (Thrown ex) /\
    GetErrorCode ex = hr /\
    what ex = "Exception with an error code: " +:+ stringify hr.
Proof.
  intros frames hr Hvalid Hbase Hhr.
  unfold IntentRecognitionResult_ctor, PopulateIntentFields. fold frames.
  rewrite Hbase, Hvalid.
  change (N.to_nat (maxCharCount + 1)) with 1025%nat.
  change maxCharCount with 1024. unfold hr in *.
  destruct (IntentResult_GetIntentId hresult (indeterminate_chars 1025) 1024)
    as [hr' sz']. simpl in Hhr. simpl.
  unfold SPX_THROW_ON_FAIL, SPX_FAILED.
  destruct (N.eqb_spec hr' SPX_NOERROR) as [Heq | _]; [contradiction |].
  simpl. eexists. split; [reflexivity |]. split; [reflexivity |].
  apply from_error_what.
Qed.

(** X9. If the call for the intent id leaves a NUL in the array whenever
    it succeeds, the constructor never reads past the end of the array:
    on every handle it either returns or throws. *)
Theorem IntentRecognitionResult_ctor_defined
    `{spxerror_h} `{debug_utils_h} `{automatic_storage}
    `{speechapi_c_h} `{recognition_result_h}
    (site : call_stack) (hresult : SPXRESULTHANDLE) :
  terminates_intent_id ->
  is_Some (IntentRecognitionResult_ctor site hresult).
Proof.
  intros Hterminates.
  unfold IntentRecognitionResult_ctor, PopulateIntentFields.
  destruct (RecognitionResult_ctor _ hresult) as [b | ex]; [| by eexists].
  destruct (recognizer_result_handle_is_valid hresult); [| by eexists].
  specialize (Hterminates hresult
                (indeterminate_chars (N.to_nat (maxCharCount + 1)))).
  destruct (IntentResult_GetIntentId hresult _ maxCharCount) as [hr sz'].
  unfold SPX_THROW_ON_FAIL. destruct (SPX_FAILED hr); [by eexists |].
  destruct (Hterminates eq_refl) as [intentId ->]. by eexists.
Qed.

Lemma IntentId_is_the_c_string_witness :
  let this : @IntentRecognitionResult sample_recognition_result_h :=
    @Build_IntentRecognitionResult sample_recognition_result_h (1 : N) "TurnOn" in
  @recognizer_result_handle_is_valid sample_speechapi_c_h 1 = true /\
  @IntentRecognitionResult_ctor sample_spxerror_h sample_debug_utils_h
    sample_automatic_storage sample_speechapi_c_h sample_recognition_result_h
    [] 1 = Some (Returned this) /\
  has_nul (IntentId this) = false /\
  (String.length (IntentId this) <= 1024)%nat.
Proof.
  intros this.
  assert (Hvalid : @recognizer_result_handle_is_valid sample_speechapi_c_h 1 = true)
    by reflexivity.
  assert (Hctor : @IntentRecognitionResult_ctor sample_spxerror_h
            sample_debug_utils_h sample_automatic_storage sample_speechapi_c_h
            sample_recognition_result_h [] 1 = Some (Returned this))
    by (vm_compute; reflexivity).
  split; [exact Hvalid |]. split; [exact Hctor |].
  pose proof (@IntentId_is_the_c_string sample_spxerror_h sample_debug_utils_h
                sample_automatic_storage sample_speechapi_c_h
                sample_recognition_result_h [] 1 this Hvalid Hctor) as Hthm.
  destruct (IntentResult_GetIntentId 1 (indeterminate_chars 1025) 1024)
    as [hr sz'].
  destruct Hthm as (_ & _ & Hnul & Hlength). split; assumption.
Defined.

Lemma IntentRecognitionResult_ctor_failure_witness :
  @recognizer_result_handle_is_valid sample_speechapi_c_h 2 = true /\
  exists ex : ExceptionWithCallStack,
    @IntentRecognitionResult_ctor sample_spxerror_h sample_debug_utils_h
      sample_automatic_storage sample_speechapi_c_h sample_recognition_result_h
      ["main"] 2 = Some (Thrown ex) /\
    GetErrorCode ex = 5 /\
    what ex = "Exception with an error code: " +:+ @stringify sample_spxerror_h 5.
Proof.
  split; [reflexivity |].
  apply (@IntentRecognitionResult_ctor_failure sample_spxerror_h
           sample_debug_utils_h sample_automatic_storage sample_speechapi_c_h
           sample_recognition_result_h ["main"] 2 2).
  - reflexivity.
  - reflexivity.
  - discriminate.
Defined.

Lemma sample_terminates_intent_id :
  @terminates_intent_id sample_spxerror_h sample_terminating_c_h.
Proof.
  intros hresult sz. simpl.
  destruct (N.eqb hresult 1).
  - intros _. exists "TurnOn". vm_compute. reflexivity.
  - discriminate.
Qed.

Lemma IntentRecognitionResult_ctor_defined_witness :
  @terminates_intent_id sample_spxerror_h sample_terminating_c_h /\
  is_Some (@IntentRecognitionResult_ctor sample_spxerror_h sample_debug_utils_h
             sample_automatic_storage sample_terminating_c_h
             sample_recognition_result_h ["main"] 1).
Proof.
  split; [exact sample_terminates_intent_id |].
  apply (@IntentRecognitionResult_ctor_defined sample_spxerror_h
           sample_debug_utils_h sample_automatic_storage sample_terminating_c_h
           sample_recognition_result_h ["main"] 1).
  exact sample_terminates_intent_id.
Defined.

(** ** The mock switches of the test suite *)

Lemma sample_keeps_mock_parameters :
  @keeps_mock_parameters sample_mock_controller_h.
Proof.
  repeat split; simpl.
  - intros name value params. by rewrite lookup_insert_eq.
  - intros name other value params Hne. by rewrite lookup_insert_ne.
Qed.

Section MockFacts.
Context `{mock_controller_h}.
Hypothesis Hkeeps : keeps_mock_parameters.

Lemma UseMocks_switches (value : bool) (params : mock_parameters) :
  SpxGetMockParameterBool "CARBON-INTERNAL-MOCK-Microphone" (UseMocks value params) = value /\
  SpxGetMockParameterBool "CARBON-INTERNAL-MOCK-SdkKwsEngine" (UseMocks value params) = value /\
  SpxGetMockParameterBool "CARBON-INTERNAL-MOCK-UspRecoEngine" (UseMocks value params) = value.
Proof.
  destruct Hkeeps as (Hsame & Hother & _). unfold UseMocks.
  repeat split.
  - rewrite Hother by discriminate. apply Hsame.
  - apply Hsame.
  - rewrite !Hother by discriminate. apply Hsame.
Qed.

(** An iteration of the loop sets the switch of the USP and leaves the
    two others alone. *)
Lemma callback_test_configure_switches (endpoint_empty : bool)
    (params : mock_parameters) (i : Z) :
  let params' := callback_test_configure endpoint_empty params i in
  SpxGetMockParameterBool "CARBON-INTERNAL-MOCK-Microphone" params'
    = SpxGetMockParameterBool "CARBON-INTERNAL-MOCK-Microphone" params /\
  SpxGetMockParameterBool "CARBON-INTERNAL-MOCK-SdkKwsEngine" params'
    = SpxGetMockParameterBool "CARBON-INTERNAL-MOCK-SdkKwsEngine" params /\
  SpxGetMockParameterBool "CARBON-INTERNAL-MOCK-UspRecoEngine" params'
    = callback_test_useMockUsp endpoint_empty i.
Proof.
  destruct Hkeeps as (Hsame & Hother & Hnumber).
  unfold callback_test_configure, UseMockUsp, SetMockRealTimeSpeed.
  repeat split.
  - rewrite Hother by discriminate. apply Hnumber.
  - rewrite Hother by discriminate. apply Hnumber.
  - apply Hsame.
Qed.

Lemma callback_test_configure_all (endpoint_empty : bool) (before : list Z) :
  forall params : mock_parameters,
    let params' := foldl (callback_test_configure endpoint_empty) params before in
    SpxGetMockParameterBool "CARBON-INTERNAL-MOCK-Microphone" params'
      = SpxGetMockParameterBool "CARBON-INTERNAL-MOCK-Microphone" params /\
    SpxGetMockParameterBool "CARBON-INTERNAL-MOCK-SdkKwsEngine" params'
      = SpxGetMockParameterBool "CARBON-INTERNAL-MOCK-SdkKwsEngine" params.
Proof.
  induction before as [| i before IH]; intros params; [by split |].
  cbn [foldl]. cbv zeta in IH.
  destruct (IH (callback_test_configure endpoint_empty params i)) as [-> ->].
  destruct (callback_test_configure_switches endpoint_empty params i)
    as (Hmic & Hkws & _).
  by split.
Qed.
End MockFacts.

(** X10. After [UseMocks(value)], [IsUsingMocks] answers [value],
    whether the mock of the USP is required or not and whatever the
    parameters were before. *)
Theorem UseMocks_IsUsingMocks `{mock_controller_h}
    (value uspMockRequired : bool) (params : mock_parameters) :
  keeps_mock_parameters ->
  IsUsingMocks uspMockRequired (UseMocks value params) = value.
Proof.
  intros Hkeeps. unfold IsUsingMocks.
  destruct (UseMocks_switches Hkeeps value params) as (-> & -> & ->).
  by destruct value, uspMockRequired.
Qed.

Lemma UseMocks_IsUsingMocks_witness :
  @IsUsingMocks sample_mock_controller_h false
    (@UseMocks sample_mock_controller_h false
       (@UseMocks sample_mock_controller_h true (∅, ∅))) = false.
Proof.
  apply (@UseMocks_IsUsingMocks sample_mock_controller_h false false).
  exact sample_keeps_mock_parameters.
Defined.

(** X11. In the test of the callback counts, which turns all mocks on and
    then lets every iteration choose the mock of the USP, [IsUsingMocks]
    answers in every iteration, whatever the iterations before it chose:
    true when the mock of the USP is not required, and the choice of the
    iteration when it is.  So the check that the test makes with its own
    choice as the argument always holds. *)
Theorem callback_test_IsUsingMocks `{mock_controller_h}
    (endpoint_empty uspMockRequired : bool) (params : mock_parameters)
    (before : list Z) (i : Z) :
  keeps_mock_parameters ->
  let useMockUsp := callback_test_useMockUsp endpoint_empty i in
  let params' :=
    callback_test_configure endpoint_empty
      (foldl (callback_test_configure endpoint_empty) (UseMocks true params) before)
      i in
  IsUsingMocks uspMockRequired params' = useMockUsp || negb uspMockRequired /\
  IsUsingMocks useMockUsp params' = true.
Proof.
  intros Hkeeps useMockUsp params'.
  assert (Hswitches :
    SpxGetMockParameterBool "CARBON-INTERNAL-MOCK-Microphone" params' = true /\
    SpxGetMockParameterBool "CARBON-INTERNAL-MOCK-SdkKwsEngine" params' = true /\
    SpxGetMockParameterBool "CARBON-INTERNAL-MOCK-UspRecoEngine" params' = useMockUsp).
  { unfold params'.
    destruct (callback_test_configure_switches Hkeeps endpoint_empty
                (foldl (callback_test_configure endpoint_empty)
                   (UseMocks true params) before) i) as (-> & -> & ->).
    destruct (callback_test_configure_all Hkeeps endpoint_empty before
                (UseMocks true params)) as [-> ->].
    destruct (UseMocks_switches Hkeeps true params) as (-> & -> & _).
    by repeat split. }
  unfold IsUsingMocks. destruct Hswitches as (-> & -> & ->).
  split; [reflexivity |]. by destruct useMockUsp.
Qed.

Lemma callback_test_IsUsingMocks_witness :
  let params' :=
    @callback_test_configure sample_mock_controller_h true
      (foldl (@callback_test_configure sample_mock_controller_h true)
         (@UseMocks sample_mock_controller_h true (∅, ∅)) [0; 1]%Z)
      10%Z in
  @IsUsingMocks sample_mock_controller_h true params' = false /\
  @IsUsingMocks sample_mock_controller_h false params' = true.
Proof.
  intros params'.
  pose proof (@callback_test_IsUsingMocks sample_mock_controller_h true true
                (∅, ∅) [0; 1]%Z 10%Z sample_keeps_mock_parameters) as [Hrequired _].
  pose proof (@callback_test_IsUsingMocks sample_mock_controller_h true false
                (∅, ∅) [0; 1]%Z 10%Z sample_keeps_mock_parameters) as [_ Hchoice].
  split; [exact Hrequired | exact Hchoice].
Defined.

(** ** The loop of the test of the callback counts *)

(** The iterations of the loop. *)
Lemma callback_test_iterations (endpoint_empty : bool) (i : Z) :
  (0 <= i < callback_test_numLoops endpoint_empty)%Z ->
  In i (Z.of_nat <$> seq 0 (Z.to_nat (callback_test_numLoops endpoint_empty))).
Proof.
  intros Hi. apply in_map_iff. exists (Z.to_nat i). split; [lia |].
  apply in_seq. lia.
Qed.

(** X12. In every iteration of that loop the real-time rate lies between
    1 and 100 and is 100 in the last iteration only.  Without an endpoint
    the mock of the USP is used in all iterations but the last; with an
    endpoint it is used in the odd iterations but the last, which are 9
    of the 20.  Either way the iteration at the full rate runs without
    the mock of the USP, and no [int] of the loop leaves the range of the
    type. *)
Theorem callback_test_schedule (endpoint_empty : bool) (i : Z) :
  (0 <= i < callback_test_numLoops endpoint_empty)%Z ->
  let numLoops := callback_test_numLoops endpoint_empty in
  let rate := callback_test_realTimeRate endpoint_empty i in
  let useMockUsp := callback_test_useMockUsp endpoint_empty i in
  (1 <= rate <= 100)%Z /\
  (rate = 100 <-> i = numLoops - 1)%Z /\
  (useMockUsp = true <->
   if endpoint_empty then (i < 10)%Z else Z.odd i = true /\ (i < 19)%Z) /\
  (rate = 100%Z -> useMockUsp = false) /\
  ((i + 1) * 100 <= 2000)%Z /\
  length (filter (fun j => callback_test_useMockUsp endpoint_empty j = true)
            (Z.of_nat <$> seq 0 (Z.to_nat numLoops)))
  = if endpoint_empty then 10%nat else 9%nat.
Proof.
  intros Hi numLoops rate useMockUsp.
  apply callback_test_iterations in Hi.
  unfold rate, useMockUsp, numLoops. clear rate useMockUsp numLoops.
  destruct endpoint_empty; cbn in Hi;
    repeat (destruct Hi as [<- | Hi];
            [vm_compute; repeat split; intros; try discriminate; try reflexivity;
             try (by exfalso; auto); intuition discriminate |]);
    contradiction.
Qed.

Lemma callback_test_schedule_witness :
  (0 <= 19 < callback_test_numLoops false)%Z /\
  callback_test_realTimeRate false 19 = 100%Z /\
  callback_test_useMockUsp false 19 = false /\
  callback_test_useMockUsp false 17 = true.
Proof.
  assert (Hlast : (0 <= 19 < callback_test_numLoops false)%Z) by (vm_compute; split; [discriminate | reflexivity]).
  assert (Hodd : (0 <= 17 < callback_test_numLoops false)%Z) by (vm_compute; split; [discriminate | reflexivity]).
  pose proof (callback_test_schedule false 19 Hlast) as (_ & Hfull & _ & Hreal & _).
  pose proof (callback_test_schedule false 17 Hodd) as (_ & _ & Hmock & _).
  split; [exact Hlast |].
  assert (Hrate : callback_test_realTimeRate false 19 = 100%Z)
    by (apply Hfull; reflexivity).
  split; [exact Hrate |]. split; [exact (Hreal Hrate) |].
  apply Hmock. split; [reflexivity | reflexivity].
Defined.

(** ** The loop that starts the asynchronous methods *)

Lemma async_test_calls_succ (numLoops : nat) :
  async_test_calls (S numLoops)
  = (async_test_calls numLoops ++
     [(numLoops * 4, StartContinuousRecognitionAsync);
      (numLoops * 4 + 1, StopContinuousRecognitionAsync);
      (numLoops * 4 + 2, StartKeywordRecognitionAsync);
      (numLoops * 4 + 3, StopKeywordRecognitionAsync)])%nat%list.
Proof.
  unfold async_test_calls.
  replace (S numLoops * 4)%nat with (numLoops * 4 + 4)%nat by lia.
  rewrite seq_app, fmap_app. f_equal.
  cbn [seq fmap list_fmap Nat.add].
  assert (Hmethod : forall k, (k < 4)%nat ->
    async_test_method 4 (numLoops * 4 + k)
    = async_test_method 4 k).
  { intros k Hk. unfold async_test_method.
    replace ((numLoops * 4 + k) mod 4)%nat with (k mod 4)%nat; [reflexivity |].
    rewrite Nat.add_comm, Nat.Div0.mod_add. reflexivity. }
  replace (S (numLoops * 4)) with (numLoops * 4 + 1)%nat by lia.
  replace (S (numLoops * 4 + 1)) with (numLoops * 4 + 2)%nat by lia.
  replace (S (numLoops * 4 + 2)) with (numLoops * 4 + 3)%nat by lia.
  replace (async_test_method 4 (numLoops * 4))
    with (async_test_method 4 (numLoops * 4 + 0)) by (f_equal; lia).
  rewrite !Hmethod by lia.
  replace (numLoops * 4 + 0)%nat with (numLoops * 4)%nat by lia.
  reflexivity.
Qed.

Lemma async_test_calls_recognizers (numLoops : nat) :
  (async_test_calls numLoops).*1 = seq 0 (numLoops * 4).
Proof.
  unfold async_test_calls. rewrite <- list_fmap_compose.
  apply list_fmap_id.
Qed.

(** X13. The loop that starts the asynchronous methods starts each of
    the four methods once per round, so as many times as there are
    rounds, and every call is made on a recognizer of its own: no
    recognizer is given two operations. *)
Theorem async_test_calls_balanced (numLoops : nat) (method : AsyncMethod) :
  times_started method (async_test_calls numLoops) = numLoops /\
  length (async_test_calls numLoops) = (numLoops * 4)%nat /\
  NoDup (async_test_calls numLoops).*1.
Proof.
  split; [| split].
  - induction numLoops as [| numLoops IH]; [reflexivity |].
    rewrite async_test_calls_succ. unfold times_started in *.
    rewrite filter_app, length_app, IH.
    assert (Hround : forall a b c d : nat,
      length (filter (fun call : nat * AsyncMethod => call.2 = method)
                [(a, StartContinuousRecognitionAsync);
                 (b, StopContinuousRecognitionAsync);
                 (c, StartKeywordRecognitionAsync);
                 (d, StopKeywordRecognitionAsync)]) = 1%nat).
    { intros a b c d. by destruct method. }
    rewrite Hround. lia.
  - unfold async_test_calls. by rewrite length_fmap, length_seq.
  - rewrite async_test_calls_recognizers. apply NoDup_seq.
Qed.

(** ** The counters of the callbacks *)

Lemma atomic_int_wrap_succ (z : Z) :
  atomic_int_wrap (atomic_int_wrap z + 1) = atomic_int_wrap (z + 1).
Proof.
  unfold atomic_int_wrap.
  replace ((z + 2 ^ 31) mod 2 ^ 32 - 2 ^ 31 + 1 + 2 ^ 31)%Z
    with ((z + 2 ^ 31) mod 2 ^ 32 + 1)%Z by lia.
  rewrite Z.add_mod_idemp_l by lia. f_equal. f_equal. lia.
Qed.

Lemma atomic_int_wrap_small (z : Z) :
  (- 2 ^ 31 <= z < 2 ^ 31)%Z -> atomic_int_wrap z = z.
Proof.
  intros Hz. unfold atomic_int_wrap. rewrite Z.mod_small; lia.
Qed.

Lemma counter_at_value (counts : gmap Callbacks Z) (kind : Callbacks) :
  (counter_at counts kind).1 = default 0%Z (counts !! kind).
Proof. unfold counter_at. by destruct (counts !! kind). Qed.

Lemma counter_increment_value (counts : gmap Callbacks Z) (kind other : Callbacks) :
  (counter_at (counter_increment counts kind) other).1
  = if decide (kind = other)
    then atomic_int_wrap ((counter_at counts kind).1 + 1)
    else (counter_at counts other).1.
Proof.
  rewrite !counter_at_value. unfold counter_increment, counter_at.
  destruct (counts !! kind) as [value |] eqn:Hkind; simpl.
  - destruct (decide (kind = other)) as [<- | Hne].
    + by rewrite lookup_insert_eq.
    + by rewrite lookup_insert_ne.
  - destruct (decide (kind = other)) as [<- | Hne].
    + by rewrite lookup_insert_eq.
    + by rewrite !lookup_insert_ne.
Qed.

Lemma createCallbacksMap_zero (kind : Callbacks) :
  (counter_at createCallbacksMap kind).1 = 0%Z.
Proof. by destruct kind. Qed.

Lemma times_ran_snoc (kind last : Callbacks) (ran : list Callbacks) :
  times_ran kind (ran ++ [last])
  = (times_ran kind ran + if decide (last = kind) then 1 else 0)%Z.
Proof.
  unfold times_ran. rewrite filter_app, length_app.
  cbn [filter list_filter]. destruct (decide (last = kind)); simpl; lia.
Qed.

(** X14. Starting from the map that [createCallbacksMap] makes, after
    any callbacks have run, each incrementing its counter, the counter
    read for a kind is the number of times a callback of that kind ran,
    wrapped to an [int].  This holds for the kind [speech_end_detected]
    too, which [createCallbacksMap] leaves out of the map and which the
    first use of its counter adds. *)
Theorem callback_counters_count (ran : list Callbacks) (kind : Callbacks) :
  (counter_at (count_callbacks createCallbacksMap ran) kind).1
  = atomic_int_wrap (times_ran kind ran) /\
  createCallbacksMap !! speech_end_detected = None /\
  (counter_at (count_callbacks createCallbacksMap (ran ++ [speech_end_detected]))
     speech_end_detected).1
  = atomic_int_wrap (times_ran speech_end_detected ran + 1).
Proof.
  assert (Hcount : forall ran kind,
    (counter_at (count_callbacks createCallbacksMap ran) kind).1
    = atomic_int_wrap (times_ran kind ran)).
  { clear. intros ran kind. induction ran as [| last ran IH] using rev_ind.
    - apply createCallbacksMap_zero.
    - unfold count_callbacks in *. rewrite foldl_app. cbn [foldl].
      rewrite counter_increment_value, times_ran_snoc.
      destruct (decide (last = kind)) as [-> | Hne].
      + rewrite IH. apply atomic_int_wrap_succ.
      + rewrite IH. f_equal. lia. }
  split; [apply Hcount |]. split; [reflexivity |].
  rewrite Hcount, times_ran_snoc. by rewrite decide_True.
Qed.

(** ** Two stored exceptions *)

(** X6. With a table that issues handles that are not in use, an
    exception stored after another gets a handle of its own, and both stay
    readable: the first still resolves to its record, and the second to a
    record with the message it was stored with. *)
Theorem StoreException_twice
    `{spxerror_h} `{debug_utils_h} `{cxx_string} `{handle_table_h}
    (site : call_stack) (errorHandles : gmap N ExceptionWithCallStack)
    (first : ExceptionWithCallStack) (second : runtime_error) :
  issues_unused ->
  let '(h1, errorHandles1, _) := StoreException errorHandles first in
  let '(h2, errorHandles2) :=
    StoreException_runtime_error site errorHandles1 second in
  h1 <> h2 /\
  Resolve errorHandles2 h1 = HrOk first /\
  exists stored : ExceptionWithCallStack,
    Resolve errorHandles2 h2 = HrOk stored /\
    what stored = runtime_error_what second.
Proof.
  intros Hunused.
  pose proof (StoreException_stored errorHandles first) as Hfirst.
  destruct (StoreException errorHandles first) as [[h1 tbl1] source].
  unfold StoreException_runtime_error.
  match goal with
  | |- context [TrackHandle tbl1 ?t] =>
      pose proof (Resolve_TrackHandle tbl1 t) as Hsecond;
      pose proof (Resolve_TrackHandle_other tbl1 t h1) as Hother;
      pose proof (Hunused _ tbl1 t) as Hfresh;
      change (issue_handle ExceptionWithCallStack tbl1 t)
        with (TrackHandle tbl1 t).1 in Hfresh;
      destruct (TrackHandle tbl1 t) as [h2 tbl2]
  end.
  cbn [fst snd] in *.
  assert (Hne : h1 <> h2).
  { intros ->. unfold Resolve in Hfirst. rewrite Hfresh in Hfirst. discriminate. }
  split; [exact Hne |]. split; [by rewrite Hother |].
  eexists. split; [exact Hsecond |].
  unfold what, runtime_error_what. simpl. apply c_str_idempotent.
Qed.

Lemma StoreException_twice_witness :
  let first :=
    @ExceptionWithCallStack_from_message sample_debug_utils_h
      ["Recognize"] "no audio" 22 0 in
  let second := {| what_arg := "bad alloc" |} in
  let '(h1, errorHandles1, _) :=
    @StoreException sample_cxx_string sample_handle_table_h ∅ first in
  let '(h2, errorHandles2) :=
    @StoreException_runtime_error sample_spxerror_h sample_debug_utils_h
      sample_handle_table_h ["catch"] errorHandles1 second in
  h1 <> h2 /\
  @Resolve sample_spxerror_h _ errorHandles2 h1 = HrOk first /\
  exists stored : ExceptionWithCallStack,
    @Resolve sample_spxerror_h _ errorHandles2 h2 = HrOk stored /\
    what stored = "bad alloc".
Proof.
  intros first second.
  exact (@StoreException_twice sample_spxerror_h sample_debug_utils_h
           sample_cxx_string sample_handle_table_h ["catch"] ∅ first second
           sample_issues_unused).
Defined.

(** ** The name behind a formatted constant *)

Lemma sample_known_codes_distinct : NoDup (@known_codes sample_spxerror_h).
Proof. by compute_done. Qed.

(** X15. When the constants of the header are pairwise distinct, each
    constant of the map is formatted with its own spelling in
    parentheses, and the code is read back from that string. *)
Theorem stringify_names_constant `{spxerror_h} (hr : SPXHR) (name : string) :
  NoDup known_codes ->
  (hr, name) ∈ errorToString_entries ->
  stringify hr = "0x" +:+ put_hex hr +:+ " (" +:+ name +:+ ")" /\
  code_of_stringified ("0x" +:+ put_hex hr +:+ " (" +:+ name +:+ ")") = Some hr.
Proof.
  intros Hdistinct Hentry.
  pose proof (stringify_entry hr name Hdistinct Hentry) as Hformat.
  split; [exact Hformat |].
  rewrite <- Hformat. apply code_of_stringified_stringify.
Qed.

Lemma stringify_names_constant_witness :
  NoDup (@known_codes sample_spxerror_h) /\
  @stringify sample_spxerror_h 27
  = "0x" +:+ put_hex 27 +:+ " (" +:+ "SPXERR_RUNTIME_ERROR" +:+ ")".
Proof.
  split; [exact sample_known_codes_distinct |].
  apply (@stringify_names_constant sample_spxerror_h 27 "SPXERR_RUNTIME_ERROR"
           sample_known_codes_distinct).
  unfold errorToString_entries. set_solver.
Defined.
